(** * Loyalty service: balance, redemption and history core

    A shallow embedding of [src/loyalty/loyalty.service.ts] and of the two
    in-memory repositories it is built on, followed by the properties the
    specification states about them.

    Modelling conventions.
    - A TypeScript [number] holding a point amount is a [Number.t], an
      IEEE 754 binary64 value with the rounding of its sums and
      differences; the integers enter it through [Number.ofZ].  What the
      specification says of integer points is stated for amounts that are
      integers with sums of at most 2^53, where the arithmetic of a
      [number] is exact.
    - A [Date] is the integer [getTime()] gives, milliseconds since the
      epoch.
    - A [Map<string, T[]>] is a [gmap string (list T)].  An array stored in
      the map is shared with whoever reads it, so an in-place update of an
      array handed out by a repository is an update of the map entry.
    - [uuidv4()] and [new Date()] are inputs of the call that uses them.
    - A thrown exception is the [Throw] case of [Result]. *)

From Stdlib Require Import ZArith Lia.
From Stdlib Require SpecFloat.
From stdpp Require Import gmap strings list sorting.

Local Open Scope Z_scope.

(** ** Numbers *)

Module Number.

(** A [number].  Every finite binary64 value is an integer multiple of
    2^-1074, the smallest positive one, so a finite value is kept as that
    integer: [Finite k] is the number k * 2^-1074.  The binary64 values
    are those whose [k] has at most 53 significant bits and is below
    2^2098 in absolute value.  The two zeros are one value here: the sums,
    differences and comparisons of the service do not tell them apart. *)
Inductive t : Type :=
  | NaN
  | Infinity (negative : bool)
  | Finite (k : Z).

(** The number an integer literal denotes. *)
Definition ofZ (n : Z) : t := Finite (n * 2 ^ 1074).

(** The integer part of a finite number, towards minus infinity. *)
Definition toZ (x : t) : Z :=
  match x with
  | Finite k => k / 2 ^ 1074
  | NaN | Infinity _ => 0
  end.

(** The binary64 value nearest to the exact result [k * 2^-1074], ties to
    the even significand: the bits below the 53 leading ones are rounded
    away, and a result of 2^1024 or more is an infinity. *)
Definition round (k : Z) : t :=
  let a := Z.abs k in
  let s := Z.log2 a - 52 in
  if decide (s ≤ 0) then Finite k
  else
    let q := a / 2 ^ s in
    let r := a mod 2 ^ s in
    let half := 2 ^ (s - 1) in
    let m := if decide (r < half) then q
             else if decide (half < r) then q + 1
             else if Z.even q then q else q + 1 in
    if decide (2 ^ 2098 ≤ m * 2 ^ s) then Infinity (bool_decide (k < 0))
    else Finite (Z.sgn k * (m * 2 ^ s)).

(** [x + y] *)
Definition add (x y : t) : t :=
  match x, y with
  | NaN, _ | _, NaN => NaN
  | Infinity a, Infinity b => if decide (a = b) then Infinity a else NaN
  | Infinity a, Finite _ => Infinity a
  | Finite _, Infinity b => Infinity b
  | Finite a, Finite b => round (a + b)
  end.

(** [x - y] *)
Definition sub (x y : t) : t :=
  match x, y with
  | NaN, _ | _, NaN => NaN
  | Infinity a, Infinity b => if decide (a = b) then NaN else Infinity a
  | Infinity a, Finite _ => Infinity a
  | Finite _, Infinity b => Infinity (negb b)
  | Finite a, Finite b => round (a - b)
  end.

(** [x < y]: false when either is [NaN]. *)
Definition ltb (x y : t) : bool :=
  match x, y with
  | NaN, _ | _, NaN => false
  | Infinity a, Infinity b => a && negb b
  | Infinity a, Finite _ => a
  | Finite _, Infinity b => negb b
  | Finite a, Finite b => bool_decide (a < b)
  end.

(** [x <= y]: false when either is [NaN]. *)
Definition leb (x y : t) : bool :=
  match x, y with
  | NaN, _ | _, NaN => false
  | Infinity a, Infinity b => a || negb b
  | Infinity a, Finite _ => a
  | Finite _, Infinity b => negb b
  | Finite a, Finite b => bool_decide (a ≤ b)
  end.

(** The same value in the binary64 of the standard library's
    specification of floating-point arithmetic. *)
Definition toSpec (x : t) : SpecFloat.spec_float :=
  match x with
  | NaN => SpecFloat.S754_nan
  | Infinity s => SpecFloat.S754_infinity s
  | Finite k => SpecFloat.binary_normalize 53 1024 k (-1074) false
  end.

(** The number of significand [m] and exponent [e], m * 2^e. *)
Definition dyadic (m e : Z) : t := Finite (m * 2 ^ (e + 1074)).

End Number.

#[global] Instance Number_eq_dec : EqDecision Number.t.
Proof. solve_decision. Defined.

Coercion Number.ofZ : Z >-> Number.t.

(** ** Entities *)

(** [type OrderStatus = 'active' | 'cancelled' | 'refunded'] *)
Inductive OrderStatus : Type := active | cancelled | refunded.

#[global] Instance OrderStatus_eq_dec : EqDecision OrderStatus.
Proof. solve_decision. Defined.

Module Order.
Record t : Type := mk
  { orderId : string; userId : string; points : Number.t;
    status : OrderStatus }.
End Order.

Module Redemption.
Record t : Type := mk
  { redemptionId : string; userId : string; points : Number.t;
    timestamp : Z }.
End Redemption.

#[global] Instance Redemption_eq_dec : EqDecision Redemption.t.
Proof. solve_decision. Defined.

(** ** Exceptions and results *)

(** The three Nest exceptions the service throws.  [NotFoundException]
    carries the user id its message interpolates, [ConflictException] the
    two amounts of [Insufficient points. Available: .., Requested: ..].
    The specification calls them [InvalidAmount], [UserNotFound] and
    [InsufficientPoints]. *)
Inductive HttpException : Type :=
  | BadRequestException
  | NotFoundException (userId : string)
  | ConflictException (available requested : Number.t).

Inductive Result (A : Type) : Type :=
  | Return (a : A)
  | Throw (e : HttpException).
Arguments Return {A} a.
Arguments Throw {A} e.

(** ** Array helpers *)

(** [arr.reduce((sum, x) => sum + f(x), 0)]: the numbers are added from
    the left, each sum rounded. *)
Definition reduce_sum {A : Type} (f : A → Number.t) (arr : list A)
    : Number.t :=
  fold_left (fun sum x => Number.add sum (f x)) arr (Number.ofZ 0).

Section array_sort.
Context {A : Type} (compareFn : A → A → Z).

(** [Array.prototype.sort] is stable: an element stays before the elements
    behind it that the comparator does not order before it.  Insertion
    from the right is the plainest stable sort; [sort_unique] below shows
    that for the comparator used here every stable sort gives the same
    array. *)
Fixpoint sort_insert (a : A) (arr : list A) : list A :=
  match arr with
  | [] => [a]
  | b :: arr' =>
      if decide (compareFn a b ≤ 0) then a :: b :: arr'
      else b :: sort_insert a arr'
  end.

Fixpoint array_sort (arr : list A) : list A :=
  match arr with
  | [] => []
  | a :: arr' => sort_insert a (array_sort arr')
  end.
End array_sort.

(** ** Repositories *)

Module OrderRepository.
(** [findByUserId]: [this.ordersByUser.get(userId) || []] *)
Definition findByUserId (ordersByUser : gmap string (list Order.t))
    (userId : string) : list Order.t :=
  default [] (ordersByUser !! userId).

(** [userExists]: [this.ordersByUser.has(userId)] *)
Definition userExists (ordersByUser : gmap string (list Order.t))
    (userId : string) : bool :=
  bool_decide (is_Some (ordersByUser !! userId)).

(** [seedStubData], the content of a fresh repository. *)
Definition seedStubData : gmap string (list Order.t) :=
  <["eve" :=
      [ Order.mk "ord-e1" "eve" 50 active;
        Order.mk "ord-e2" "eve" 50 active;
        Order.mk "ord-e3" "eve" 50 active;
        Order.mk "ord-e4" "eve" 50 active;
        Order.mk "ord-e5" "eve" 50 active ]]>
  (<["dave" :=
      [ Order.mk "ord-d1" "dave" 200 active;
        Order.mk "ord-d2" "dave" 100 cancelled ]]>
  (<["charlie" := [ Order.mk "ord-c1" "charlie" 500 active ]]>
  (<["bob" := []]>
  (<["alice" :=
      [ Order.mk "ord-a1" "alice" 100 active;
        Order.mk "ord-a2" "alice" 150 active;
        Order.mk "ord-a3" "alice" 50 active ]]> ∅)))).
End OrderRepository.

Module RedemptionRepository.
(** [findByUserId]: [this.redemptionsByUser.get(userId) || []].  For a
    user with an entry the result is the stored array itself. *)
Definition findByUserId (redemptionsByUser : gmap string (list Redemption.t))
    (userId : string) : list Redemption.t :=
  default [] (redemptionsByUser !! userId).

(** [save]: push on the user's array (a new one when there is none) and
    set the entry. *)
Definition save (redemptionsByUser : gmap string (list Redemption.t))
    (redemption : Redemption.t) : gmap string (list Redemption.t) :=
  let userRedemptions :=
    default [] (redemptionsByUser !! Redemption.userId redemption) in
  <[Redemption.userId redemption := userRedemptions ++ [redemption]]>
    redemptionsByUser.

(** [seedStubData]; the timestamps are the instants of the source's date
    literals in milliseconds. *)
Definition seedStubData : gmap string (list Redemption.t) :=
  <["eve" :=
      [ Redemption.mk "red-e1" "eve" 25 1737201600000;
        Redemption.mk "red-e2" "eve" 75 1737305100000 ]]>
  (<["charlie" :=
      [ Redemption.mk "red-c1" "charlie" 250 1737297000000;
        Redemption.mk "red-c2" "charlie" 250 1737364500000 ]]>
  (<["alice" := [ Redemption.mk "red-a1" "alice" 100 1737367200000 ]]> ∅)).
End RedemptionRepository.

(** ** The service *)

(** The return value of [calculateBalance]. *)
Record Balance : Type := mkBalance
  { earnedPoints : Number.t; redeemedPoints : Number.t;
    balance : Number.t }.

Module BalanceResponseDto.
Record t : Type := mk
  { userId : string; balance : Number.t; earnedPoints : Number.t;
    redeemedPoints : Number.t }.
End BalanceResponseDto.

Module RedemptionResponseDto.
Record t : Type := mk
  { redemptionId : string; userId : string; points : Number.t;
    timestamp : Z; newBalance : Number.t }.
End RedemptionResponseDto.

(** An element of the history: the four fields of the stored record.  The
    source renders the instant with [toISOString], which determines and is
    determined by the millisecond value kept here. *)
Module RedemptionRecordDto.
Record t : Type := mk
  { redemptionId : string; userId : string; points : Number.t;
    timestamp : Z }.
End RedemptionRecordDto.

#[global] Instance RedemptionRecordDto_eq_dec : EqDecision RedemptionRecordDto.t.
Proof. solve_decision. Defined.

(** What [getRedemptionHistory] returns: [{ userId, redemptions }]. *)
Module RedemptionHistory.
Record t : Type := mk
  { userId : string; redemptions : list RedemptionRecordDto.t }.
End RedemptionHistory.

Module LoyaltyService.

(** The fields of the service object: the two injected repositories and
    the lock table.  A promise is known by its identity. *)
Record t : Type := mk
  { orderRepository : gmap string (list Order.t);
    redemptionRepository : gmap string (list Redemption.t);
    activeLocks : gmap string nat }.

(** A service as the test module builds it. *)
Definition fresh : t :=
  mk OrderRepository.seedStubData RedemptionRepository.seedStubData ∅.

Definition calculateBalance (this : t) (userId : string) : Balance :=
  let orders := OrderRepository.findByUserId (orderRepository this) userId in
  let redemptions :=
    RedemptionRepository.findByUserId (redemptionRepository this) userId in
  let earnedPoints :=
    reduce_sum Order.points
      (filter (fun order => Order.status order = active) orders) in
  let redeemedPoints := reduce_sum Redemption.points redemptions in
  let balance := Number.sub earnedPoints redeemedPoints in
  mkBalance earnedPoints redeemedPoints balance.

Definition getBalance (this : t) (userId : string)
    : Result BalanceResponseDto.t :=
  if negb (OrderRepository.userExists (orderRepository this) userId)
  then Throw (NotFoundException userId)
  else
    let b := calculateBalance this userId in
    Return (BalanceResponseDto.mk userId (balance b) (earnedPoints b)
              (redeemedPoints b)).

(** [executeRedemption]; [redemptionId] is what [uuidv4()] gives this
    call and [now] the instant of its [new Date()]. *)
Definition executeRedemption (this : t) (userId : string)
    (points : Number.t) (redemptionId : string) (now : Z)
    : Result RedemptionResponseDto.t * t :=
  if Number.leb points 0 then (Throw BadRequestException, this)
  else if negb (OrderRepository.userExists (orderRepository this) userId)
  then (Throw (NotFoundException userId), this)
  else
    let balance := balance (calculateBalance this userId) in
    if Number.ltb balance points
    then (Throw (ConflictException balance points), this)
    else
      let redemption := Redemption.mk redemptionId userId points now in
      let this' :=
        mk (orderRepository this)
           (RedemptionRepository.save (redemptionRepository this) redemption)
           (activeLocks this) in
      let newBalance := Number.sub balance points in
      (Return (RedemptionResponseDto.mk
                 (Redemption.redemptionId redemption)
                 (Redemption.userId redemption)
                 (Redemption.points redemption)
                 (Redemption.timestamp redemption)
                 newBalance),
       this').

(** [redeemPoints] from the creation of its lock on (lines 84 to 97): the
    part of a call that runs once the call is past the wait for a lock it
    found, and at once when it found none.  It has no suspension point:
    the lock is registered, [executeRedemption] runs, and the [finally]
    block resolves the lock and deletes the entry, also when
    [executeRedemption] throws.  [lockPromise] is the identity of the
    promise the call creates. *)
Definition redeemPoints (this : t) (userId : string) (points : Number.t)
    (lockPromise : nat) (redemptionId : string) (now : Z)
    : Result RedemptionResponseDto.t * t :=
  let locked :=
    mk (orderRepository this) (redemptionRepository this)
       (<[userId := lockPromise]> (activeLocks this)) in
  let '(result, this') :=
    executeRedemption locked userId points redemptionId now in
  (result,
   mk (orderRepository this') (redemptionRepository this')
      (delete userId (activeLocks this'))).

(** The comparator of the history sort,
    [(a, b) => b.timestamp.getTime() - a.timestamp.getTime()]. *)
Definition newestFirst (a b : Redemption.t) : Z :=
  Redemption.timestamp b - Redemption.timestamp a.

Definition toRecordDto (r : Redemption.t) : RedemptionRecordDto.t :=
  RedemptionRecordDto.mk (Redemption.redemptionId r) (Redemption.userId r)
    (Redemption.points r) (Redemption.timestamp r).

(** [getRedemptionHistory].  [sort] works in place on the array the
    repository returned: for a user with an entry that is the stored
    array, which is therefore left sorted ([alter]); for a user without
    one it is a new empty array that nothing else refers to. *)
Definition getRedemptionHistory (this : t) (userId : string)
    : Result RedemptionHistory.t * t :=
  if negb (OrderRepository.userExists (orderRepository this) userId)
  then (Throw (NotFoundException userId), this)
  else
    let redemptions :=
      RedemptionRepository.findByUserId (redemptionRepository this) userId in
    let sortedRedemptions :=
      toRecordDto <$> array_sort newestFirst redemptions in
    (Return (RedemptionHistory.mk userId sortedRedemptions),
     mk (orderRepository this)
        (alter (array_sort newestFirst) userId (redemptionRepository this))
        (activeLocks this)).

End LoyaltyService.

(** ** Sequences of calls *)

(** A call of one of the three public operations, with the inputs the
    environment supplies to it. *)
Inductive Call : Type :=
  | GetBalance (userId : string)
  | RedeemPoints (userId : string) (points : Number.t)
      (lockPromise : nat) (redemptionId : string) (now : Z)
  | GetRedemptionHistory (userId : string).

Inductive Response : Type :=
  | BalanceResponse (r : Result BalanceResponseDto.t)
  | RedemptionResponse (r : Result RedemptionResponseDto.t)
  | HistoryResponse (r : Result RedemptionHistory.t).

Definition call (this : LoyaltyService.t) (c : Call)
    : Response * LoyaltyService.t :=
  match c with
  | GetBalance userId =>
      (BalanceResponse (LoyaltyService.getBalance this userId), this)
  | RedeemPoints userId points lockPromise redemptionId now =>
      let '(r, this') :=
        LoyaltyService.redeemPoints this userId points lockPromise
          redemptionId now in
      (RedemptionResponse r, this')
  | GetRedemptionHistory userId =>
      let '(r, this') := LoyaltyService.getRedemptionHistory this userId in
      (HistoryResponse r, this')
  end.

(** The calls of a list one after the other, each started when the one
    before it has returned. *)
Fixpoint run (this : LoyaltyService.t) (calls : list Call)
    : list Response * LoyaltyService.t :=
  match calls with
  | [] => ([], this)
  | c :: calls' =>
      let '(r, this') := call this c in
      let '(rs, this'') := run this' calls' in
      (r :: rs, this'')
  end.

(** ** Calls in flight

    [redeemPoints] is an [async] function, so several calls can be in flight
    at once.  The runtime runs one call at a time and switches only where a
    call suspends; the one suspension point of [redeemPoints] is the [await]
    of line 81, taken only when the lock table has an entry for the user. *)

Module EventLoop.

(** Where a call of [redeemPoints] is: not yet started, suspended on the
    lock it found, or returned. *)
Inductive Stage : Type :=
  | Called
  | Awaiting (existingLock : nat)
  | Settled (r : Result RedemptionResponseDto.t).

Record Task : Type := mkTask
  { userId : string; points : Number.t; redemptionId : string;
    stage : Stage }.

(** The service, the promises resolved so far, the identity of the next
    promise to be created, and the calls. *)
Record t : Type := mk
  { service : LoyaltyService.t;
    resolved : gset nat;
    nextPromise : nat;
    tasks : list Task }.

(** Lines 84 to 97 for call [i]: it creates its lock, runs
    [LoyaltyService.redeemPoints] and returns; its lock is resolved in the
    [finally] block. *)
Definition critical (σ : t) (i : nat) (task : Task) (now : Z) : t :=
  let '(r, service') :=
    LoyaltyService.redeemPoints (service σ) (userId task) (points task)
      (nextPromise σ) (redemptionId task) now in
  mk service' ({[nextPromise σ]} ∪ resolved σ) (S (nextPromise σ))
     (<[i := mkTask (userId task) (points task) (redemptionId task)
               (Settled r)]> (tasks σ)).

(** The runtime gives call [i] the processor at instant [now].  A call not
    yet started reads the lock table (line 79): with an entry for its user
    it suspends on that promise, without one it runs to its end.  A
    suspended call resumes once the promise is resolved.  [None]: the call
    cannot run (there is no such call, it has returned, or it waits for a
    promise not yet resolved). *)
Definition advance (σ : t) (i : nat) (now : Z) : option t :=
  match tasks σ !! i with
  | None => None
  | Some task =>
      match stage task with
      | Called =>
          match LoyaltyService.activeLocks (service σ) !! userId task with
          | Some existingLock =>
              Some (mk (service σ) (resolved σ) (nextPromise σ)
                      (<[i := mkTask (userId task) (points task)
                                (redemptionId task)
                                (Awaiting existingLock)]> (tasks σ)))
          | None => Some (critical σ i task now)
          end
      | Awaiting existingLock =>
          if decide (existingLock ∈ resolved σ)
          then Some (critical σ i task now)
          else None
      | Settled _ => None
      end
  end.

(** A schedule: which call runs next, and at which instant. *)
Fixpoint exec (σ : t) (schedule : list (nat * Z)) : option t :=
  match schedule with
  | [] => Some σ
  | (i, now) :: schedule' =>
      match advance σ i now with
      | Some σ' => exec σ' schedule'
      | None => None
      end
  end.

(** Requests [(userId, points, redemptionId)] arriving at a service on
    which no call is in flight. *)
Definition launch (this : LoyaltyService.t)
    (requests : list (string * Number.t * string)) : t :=
  mk this ∅ 0
     ((fun '(userId, points, redemptionId) =>
         mkTask userId points redemptionId Called) <$> requests).

(** The calls of a schedule as calls made one after the other, the [n]th
    critical section creating promise [n]. *)
Fixpoint sequential (requests : list (string * Number.t * string)) (n : nat)
    (schedule : list (nat * Z)) : list Call :=
  match schedule with
  | [] => []
  | (i, now) :: schedule' =>
      match requests !! i with
      | Some (userId, points, redemptionId) =>
          RedeemPoints userId points n redemptionId now
          :: sequential requests (S n) schedule'
      | None => []
      end
  end.

End EventLoop.

(** What the specification says of requests for one user served in a given
    order: a request is accepted when it fits in what the accepted ones
    before it have left.  For each request: the balance it is checked
    against, its amount, and whether it is accepted. *)
Fixpoint served (available : Z) (amounts : list Z) : list (Z * Z * bool) :=
  match amounts with
  | [] => []
  | p :: amounts' =>
      if decide (p ≤ available)
      then (available, p, true) :: served (available - p) amounts'
      else (available, p, false) :: served available amounts'
  end.

(** The amounts accepted. *)
Fixpoint accepted (available : Z) (amounts : list Z) : list Z :=
  match amounts with
  | [] => []
  | p :: amounts' =>
      if decide (p ≤ available)
      then p :: accepted (available - p) amounts'
      else accepted available amounts'
  end.

(** ** Vocabulary of the statements *)

(** Σ over a list, the way the specification writes it. *)
Fixpoint total (amounts : list Z) : Z :=
  match amounts with
  | [] => 0
  | x :: amounts' => x + total amounts'
  end.

(** [newer a b]: [a] may stand before [b] in a newest-first array. *)
Definition newer (a b : Redemption.t) : Prop :=
  Redemption.timestamp b ≤ Redemption.timestamp a.

(** The records of instant [t], in the order the array has them. *)
Definition ties (t : Z) (arr : list Redemption.t) : list Redemption.t :=
  filter (fun r => Redemption.timestamp r = t) arr.

(** The balance [calculateBalance] computes. *)
Definition balanceOf (this : LoyaltyService.t) (userId : string)
    : Number.t :=
  balance (LoyaltyService.calculateBalance this userId).


(** Calls that record nothing. *)
Definition is_read (c : Call) : bool :=
  match c with
  | GetBalance _ | GetRedemptionHistory _ => true
  | RedeemPoints _ _ _ _ _ => false
  end.

(** The records the calls of a run append for a user, in the order of the
    calls. *)
Fixpoint appended (this : LoyaltyService.t) (calls : list Call)
    (userId : string) : list Redemption.t :=
  match calls with
  | [] => []
  | c :: calls' =>
      let '(r, this') := call this c in
      match c, r with
      | RedeemPoints u points _ redemptionId now,
        RedemptionResponse (Return _) =>
          if decide (u = userId)
          then [Redemption.mk redemptionId u points now]
          else []
      | _, _ => []
      end ++ appended this' calls' userId
  end.

(** Two services that no call can tell apart: the same orders, and for
    every user redemption arrays that sort to the same array. *)
Definition same_view (this1 this2 : LoyaltyService.t) : Prop :=
  LoyaltyService.orderRepository this1 = LoyaltyService.orderRepository this2
  ∧ ∀ userId,
      array_sort LoyaltyService.newestFirst
        (RedemptionRepository.findByUserId
           (LoyaltyService.redemptionRepository this1) userId)
      = array_sort LoyaltyService.newestFirst
          (RedemptionRepository.findByUserId
             (LoyaltyService.redemptionRepository this2) userId).

(** The points a call asks for. *)
Definition amount (c : Call) : Number.t :=
  match c with
  | RedeemPoints _ points _ _ _ => points
  | GetBalance _ | GetRedemptionHistory _ => 0
  end.

(** A response that is what [served] says of the request. *)
Definition outcome (resp : Response) (s : Z * Z * bool) : Prop :=
  let '(available, p, ok) := s in
  if ok
  then ∃ dto, resp = RedemptionResponse (Return dto)
              ∧ RedemptionResponseDto.points dto = Number.ofZ p
              ∧ RedemptionResponseDto.newBalance dto
                = Number.ofZ (available - p)
  else resp = RedemptionResponse
                (Throw (ConflictException (Number.ofZ available)
                          (Number.ofZ p))).

(** The response a call in flight has returned, if it has. *)
Definition response_of (task : EventLoop.Task) : option Response :=
  match EventLoop.stage task with
  | EventLoop.Settled r => Some (RedemptionResponse r)
  | EventLoop.Called | EventLoop.Awaiting _ => None
  end.

(** A task made from a request, and not suspended. *)
Definition task_for (task : EventLoop.Task)
    (request : string * Number.t * string) : Prop :=
  (EventLoop.userId task, EventLoop.points task, EventLoop.redemptionId task)
  = request
  ∧ ∀ l, EventLoop.stage task ≠ EventLoop.Awaiting l.

(** No lock is registered, and the calls are those of the requests, none of
    them suspended. *)
Definition settled_or_new (requests : list (string * Number.t * string))
    (σ : EventLoop.t) : Prop :=
  LoyaltyService.activeLocks (EventLoop.service σ) = ∅
  ∧ Forall2 task_for (EventLoop.tasks σ) requests.

(** A non-negative integer, as the entities say a point amount is. *)
Definition whole (x : Number.t) : Prop :=
  x = Number.ofZ (Number.toZ x) ∧ 0 ≤ Number.toZ x.

(** Amounts whose sums are exact: integers of at least zero that sum to at
    most 2^53. *)
Definition safe_amounts (xs : list Number.t) : Prop :=
  Forall whole xs ∧ total (Number.toZ <$> xs) ≤ 2 ^ 53.

(** The amounts [calculateBalance] adds for a user. *)
Definition earning (this : LoyaltyService.t) (userId : string)
    : list Number.t :=
  Order.points
    <$> filter (fun order => Order.status order = active)
          (OrderRepository.findByUserId
             (LoyaltyService.orderRepository this) userId).

Definition redeeming (this : LoyaltyService.t) (userId : string)
    : list Number.t :=
  Redemption.points
    <$> RedemptionRepository.findByUserId
          (LoyaltyService.redemptionRepository this) userId.

(** The exact sums of these amounts. *)
Definition earnedZ (this : LoyaltyService.t) (userId : string) : Z :=
  total (Number.toZ <$> earning this userId).

Definition redeemedZ (this : LoyaltyService.t) (userId : string) : Z :=
  total (Number.toZ <$> redeeming this userId).

(** A service in the range where the arithmetic of [number] is exact: for
    every user the points of the active orders and the points of the
    redemptions are integers of at least zero, with sums of at most
    2^53. *)
Definition safe (this : LoyaltyService.t) : Prop :=
  ∀ userId,
    safe_amounts (earning this userId)
    ∧ safe_amounts (redeeming this userId).

(** A call that asks for an integer number of points, if it asks for any. *)
Definition integer_call (c : Call) : Prop :=
  match c with
  | RedeemPoints _ points _ _ _ => points = Number.ofZ (Number.toZ points)
  | GetBalance _ | GetRedemptionHistory _ => True
  end.

(** A call that cannot write to the records of a user: any [getBalance],
    and the calls made for another user. *)
Definition leaves_alone (userId : string) (c : Call) : Prop :=
  match c with
  | GetBalance _ => True
  | RedeemPoints u _ _ _ _ | GetRedemptionHistory u => u ≠ userId
  end.

#[global] Instance whole_dec (x : Number.t) : Decision (whole x).
Proof. unfold whole. apply _. Defined.

#[global] Instance safe_amounts_dec (xs : list Number.t) :
  Decision (safe_amounts xs).
Proof. unfold safe_amounts. apply _. Defined.

#[global] Instance integer_call_dec (c : Call) : Decision (integer_call c).
Proof. destruct c; apply _. Defined.

#[global] Instance leaves_alone_dec (userId : string) (c : Call) :
  Decision (leaves_alone userId c).
Proof. destruct c; apply _. Defined.

(** * Properties *)

(** ** Numbers *)

Section number_facts.
Import Number.

Lemma ofZ_inj (a b : Z) : ofZ a = ofZ b → a = b.
Proof.
  unfold ofZ. intros [= H].
  apply Z.mul_cancel_r in H; [done|]. apply Z.pow_nonzero; lia.
Qed.

Lemma toZ_ofZ (n : Z) : toZ (ofZ n) = n.
Proof. unfold toZ, ofZ. apply Z.div_mul, Z.pow_nonzero; lia. Qed.

Lemma ltb_ofZ (a b : Z) : ltb (ofZ a) (ofZ b) = bool_decide (a < b).
Proof.
  unfold ltb, ofZ. apply bool_decide_ext.
  symmetry. apply Z.mul_lt_mono_pos_r. by apply Z.pow_pos_nonneg.
Qed.

Lemma leb_ofZ (a b : Z) : leb (ofZ a) (ofZ b) = bool_decide (a ≤ b).
Proof.
  unfold leb, ofZ. apply bool_decide_ext.
  symmetry. apply Z.mul_le_mono_pos_r. by apply Z.pow_pos_nonneg.
Qed.

(** An exact result that has at most 53 significant bits is not changed by
    the rounding: here an integer of at most 2^53 in absolute value. *)
Lemma round_integer (n : Z) :
  Z.abs n ≤ 2 ^ 53 → round (n * 2 ^ 1074) = Finite (n * 2 ^ 1074).
Proof.
  intros Hn. unfold round.
  destruct (decide (n = 0)) as [->|Hn0]; [done|].
  assert (Ha : Z.abs (n * 2 ^ 1074) = Z.abs n * 2 ^ 1074).
  { rewrite Z.abs_mul, (Z.abs_eq (2 ^ 1074)); [done|].
    by apply Z.pow_nonneg. }
  rewrite Ha.
  assert (Hpos : 0 < Z.abs n) by lia.
  rewrite Z.log2_mul_pow2 by lia.
  set (L := Z.log2 (Z.abs n)).
  assert (HL0 : 0 ≤ L) by apply Z.log2_nonneg.
  assert (HL53 : L ≤ 53).
  { subst L. rewrite <- (Z.log2_pow2 53) by lia. by apply Z.log2_le_mono. }
  assert (Hlow : 2 ^ L ≤ Z.abs n) by (by apply Z.log2_spec).
  destruct (decide (1074 + L - 52 ≤ 0)) as [?|_]; [lia|].
  set (s := 1074 + L - 52).
  assert (Hdiv : ∃ q, Z.abs n * 2 ^ 1074 = q * 2 ^ s).
  { destruct (decide (L ≤ 52)) as [Hle|Hgt].
    - exists (Z.abs n * 2 ^ (1074 - s)).
      rewrite <- Z.mul_assoc, <- Z.pow_add_r by (subst s; lia).
      do 2 f_equal. lia.
    - assert (L = 53) as HL by lia.
      assert (Z.abs n = 2 ^ 53) as -> by (rewrite HL in Hlow; lia).
      exists (2 ^ 52). subst s. rewrite HL.
      rewrite <- !Z.pow_add_r by lia. f_equal. }
  destruct Hdiv as [q Hq].
  assert (H2s : 0 < 2 ^ s) by (apply Z.pow_pos_nonneg; subst s; lia).
  rewrite Hq, Z.div_mul, Z.mod_mul by lia.
  assert (Hhalf : 0 < 2 ^ (s - 1)) by (apply Z.pow_pos_nonneg; subst s; lia).
  destruct (decide (0 < 2 ^ (s - 1))) as [_|?]; [|lia].
  assert (Hbig : q * 2 ^ s < 2 ^ 2098).
  { rewrite <- Hq.
    apply Z.le_lt_trans with (2 ^ 53 * 2 ^ 1074).
    - apply Z.mul_le_mono_nonneg_r; [by apply Z.pow_nonneg|done].
    - rewrite <- Z.pow_add_r by lia. apply Z.pow_lt_mono_r; lia. }
  destruct (decide (2 ^ 2098 ≤ q * 2 ^ s)) as [?|_]; [lia|].
  f_equal. rewrite <- Hq, <- Ha. rewrite Z.mul_comm. apply Z.abs_sgn.
Qed.

Lemma add_ofZ (a b : Z) :
  Z.abs (a + b) ≤ 2 ^ 53 → add (ofZ a) (ofZ b) = ofZ (a + b).
Proof.
  intros Hab. unfold add, ofZ.
  rewrite <- Z.mul_add_distr_r. by apply round_integer.
Qed.

Lemma sub_ofZ (a b : Z) :
  Z.abs (a - b) ≤ 2 ^ 53 → sub (ofZ a) (ofZ b) = ofZ (a - b).
Proof.
  intros Hab. unfold sub, ofZ.
  rewrite <- Z.mul_sub_distr_r. by apply round_integer.
Qed.

(** [NaN] is on neither side of any comparison. *)
Lemma NaN_incomparable (x : Number.t) :
  leb NaN x = false ∧ ltb NaN x = false
  ∧ leb x NaN = false ∧ ltb x NaN = false.
Proof. by destruct x. Qed.
End number_facts.

(** The sums, differences and comparisons of [Number] are those of the
    binary64 of the standard library's specification of floating-point
    arithmetic on every pair of these values: 0, 1, 200, 0.1, 0.2, 2^53,
    2^53 + 2, the largest finite number, the smallest positive one, [NaN]
    and the infinities. *)
Example number_agrees_with_binary64 :
  let samples :=
    [Number.ofZ 0; Number.ofZ 1; Number.ofZ 200;
     Number.dyadic 3602879701896397 (-55);
     Number.dyadic 3602879701896397 (-54);
     Number.ofZ (2 ^ 53); Number.ofZ (2 ^ 53 + 2);
     Number.dyadic (2 ^ 53 - 1) 971; Number.Finite 1;
     Number.NaN; Number.Infinity true; Number.Infinity false] in
  let same (a b : SpecFloat.spec_float) :=
    match a, b with
    | SpecFloat.S754_zero _, SpecFloat.S754_zero _ => true
    | SpecFloat.S754_nan, SpecFloat.S754_nan => true
    | SpecFloat.S754_infinity s, SpecFloat.S754_infinity s' =>
        bool_decide (s = s')
    | SpecFloat.S754_finite s m e, SpecFloat.S754_finite s' m' e' =>
        bool_decide (s = s' ∧ m = m' ∧ e = e')
    | _, _ => false
    end in
  forallb (fun x => forallb (fun y =>
    same (Number.toSpec (Number.add x y))
         (SpecFloat.SFadd 53 1024 (Number.toSpec x) (Number.toSpec y))
    && same (Number.toSpec (Number.sub x y))
            (SpecFloat.SFsub 53 1024 (Number.toSpec x) (Number.toSpec y))
    && bool_decide (Number.ltb x y
                    = SpecFloat.SFltb (Number.toSpec x) (Number.toSpec y))
    && bool_decide (Number.leb x y
                    = SpecFloat.SFleb (Number.toSpec x) (Number.toSpec y)))
    samples) samples = true.
Proof. vm_compute. reflexivity. Qed.

(** ** Sums *)

Section sums.
Import Number.

Lemma total_app (xs ys : list Z) : total (xs ++ ys) = total xs + total ys.
Proof. induction xs as [|x xs IH]; simpl; lia. Qed.

Lemma total_nonneg (amounts : list Z) :
  Forall (fun x => 0 ≤ x) amounts → 0 ≤ total amounts.
Proof. induction 1; simpl; lia. Qed.

Lemma total_perm (xs ys : list Z) : xs ≡ₚ ys → total xs = total ys.
Proof. induction 1; simpl; lia. Qed.

Lemma whole_ofZ (n : Z) : 0 ≤ n → whole (ofZ n).
Proof. intros Hn. unfold whole. by rewrite toZ_ofZ. Qed.

Lemma whole_total_nonneg (xs : list Number.t) :
  Forall whole xs → 0 ≤ total (toZ <$> xs).
Proof.
  intros Hxs. apply total_nonneg, Forall_fmap.
  eapply Forall_impl; [exact Hxs|]. by intros x [_ Hx].
Qed.

Lemma safe_amounts_bounds (xs : list Number.t) :
  safe_amounts xs → 0 ≤ total (toZ <$> xs) ≤ 2 ^ 53.
Proof. intros [Hw Hb]. split; [by apply whole_total_nonneg|done]. Qed.

Lemma safe_amounts_perm (xs ys : list Number.t) :
  xs ≡ₚ ys → safe_amounts xs → safe_amounts ys.
Proof.
  intros Hp [Hw Hb]. split.
  - by rewrite <- Hp.
  - rewrite <- (total_perm (toZ <$> xs)); [done|]. by rewrite Hp.
Qed.

Lemma safe_amounts_snoc (xs : list Number.t) (n : Z) :
  Forall whole xs → 0 ≤ n → total (toZ <$> xs) + n ≤ 2 ^ 53 →
  safe_amounts (xs ++ [ofZ n]).
Proof.
  intros Hw Hn Hb. split.
  - apply Forall_app. split; [done|]. constructor; [|constructor].
    by apply whole_ofZ.
  - rewrite fmap_app, total_app.
    change (total (toZ <$> [ofZ n])) with (toZ (ofZ n) + 0).
    rewrite toZ_ofZ. lia.
Qed.

Section reduce_sum.
Context {A : Type} (f : A → Number.t).

Lemma reduce_sum_nil : reduce_sum f [] = ofZ 0.
Proof. reflexivity. Qed.

Lemma reduce_sum_snoc (arr : list A) (x : A) :
  reduce_sum f (arr ++ [x]) = add (reduce_sum f arr) (f x).
Proof. unfold reduce_sum. by rewrite fold_left_app. Qed.

(** Sums of non-negative integers that stay within 2^53 are exact, from
    whichever sum the fold starts. *)
Lemma fold_left_safe (arr : list A) (a : Z) :
  0 ≤ a → Forall whole (f <$> arr) →
  a + total (toZ <$> (f <$> arr)) ≤ 2 ^ 53 →
  fold_left (fun sum x => add sum (f x)) arr (ofZ a)
  = ofZ (a + total (toZ <$> (f <$> arr))).
Proof.
  revert a. induction arr as [|x arr IH]; intros a Ha Hw Hb.
  - simpl. f_equal. lia.
  - rewrite fmap_cons in Hw. apply Forall_cons in Hw as [[Hx Hx0] Hw].
    rewrite !fmap_cons in Hb. cbn [total] in Hb.
    pose proof (whole_total_nonneg _ Hw) as Hrest.
    cbn [fold_left]. rewrite Hx, add_ofZ by lia.
    rewrite IH by (try done; lia).
    rewrite !fmap_cons. cbn [total]. f_equal. lia.
Qed.

Lemma reduce_sum_safe (arr : list A) :
  safe_amounts (f <$> arr) →
  reduce_sum f arr = ofZ (total (toZ <$> (f <$> arr))).
Proof.
  intros [Hw Hb]. unfold reduce_sum.
  by rewrite (fold_left_safe arr 0).
Qed.
End reduce_sum.
End sums.

(** ** The history sort *)

Section history_sort.
Import LoyaltyService.

Lemma sort_insert_perm (a : Redemption.t) (arr : list Redemption.t) :
  sort_insert newestFirst a arr ≡ₚ a :: arr.
Proof.
  induction arr as [|b arr IH]; simpl; [done|].
  case_decide; [done|].
  rewrite IH. apply Permutation_swap.
Qed.

Lemma array_sort_perm (arr : list Redemption.t) :
  array_sort newestFirst arr ≡ₚ arr.
Proof.
  induction arr as [|a arr IH]; simpl; [done|].
  rewrite sort_insert_perm, IH. done.
Qed.

Lemma array_sort_length (arr : list Redemption.t) :
  length (array_sort newestFirst arr) = length arr.
Proof. apply Permutation_length, array_sort_perm. Qed.

Lemma sort_insert_HdRel (a b : Redemption.t) (arr : list Redemption.t) :
  HdRel newer b arr → ¬ newestFirst a b ≤ 0 →
  HdRel newer b (sort_insert newestFirst a arr).
Proof.
  unfold newestFirst. intros Hhd Hab.
  destruct arr as [|c arr]; simpl.
  - constructor. unfold newer. lia.
  - case_decide; constructor.
    + unfold newer. lia.
    + by inversion Hhd.
Qed.

Lemma sort_insert_sorted (a : Redemption.t) (arr : list Redemption.t) :
  Sorted newer arr → Sorted newer (sort_insert newestFirst a arr).
Proof.
  induction 1 as [|b arr Hs IH Hhd]; simpl.
  - repeat constructor.
  - case_decide as Hab.
    + constructor; [by constructor|].
      constructor. unfold newer, newestFirst in *. lia.
    + constructor; [done|]. by apply sort_insert_HdRel.
Qed.

Lemma array_sort_sorted (arr : list Redemption.t) :
  Sorted newer (array_sort newestFirst arr).
Proof.
  induction arr as [|a arr IH]; simpl; [constructor|].
  by apply sort_insert_sorted.
Qed.

Lemma ties_cons (t : Z) (a : Redemption.t) (arr : list Redemption.t) :
  ties t (a :: arr)
  = if decide (Redemption.timestamp a = t) then a :: ties t arr
    else ties t arr.
Proof. unfold ties. by rewrite filter_cons. Qed.

Lemma ties_app (t : Z) (arr1 arr2 : list Redemption.t) :
  ties t (arr1 ++ arr2) = ties t arr1 ++ ties t arr2.
Proof. apply filter_app. Qed.

Lemma ties_sort_insert (t : Z) (a : Redemption.t) (arr : list Redemption.t) :
  ties t (sort_insert newestFirst a arr) = ties t (a :: arr).
Proof.
  induction arr as [|b arr IH]; simpl; [done|].
  case_decide as Hab; [done|].
  rewrite (ties_cons t b), IH, !ties_cons.
  unfold newestFirst in Hab.
  repeat case_decide; try done; lia.
Qed.

(** Stability: the sort keeps records of one instant in the order it
    found them. *)
Lemma ties_array_sort (t : Z) (arr : list Redemption.t) :
  ties t (array_sort newestFirst arr) = ties t arr.
Proof.
  induction arr as [|a arr IH]; simpl; [done|].
  by rewrite ties_sort_insert, !ties_cons, IH.
Qed.

Lemma sorted_head_newest (a x : Redemption.t) (arr : list Redemption.t) :
  Sorted newer (a :: arr) → x ∈ a :: arr → newer a x.
Proof.
  intros Hs Hx.
  apply Sorted_StronglySorted in Hs; [|intros ???; unfold newer; lia].
  apply StronglySorted_inv in Hs as [_ Hall].
  apply elem_of_cons in Hx as [->|Hx]; [unfold newer; lia|].
  rewrite Forall_forall in Hall. by apply Hall.
Qed.

Lemma elem_of_ties (x : Redemption.t) (arr : list Redemption.t) :
  x ∈ arr → x ∈ ties (Redemption.timestamp x) arr.
Proof. intros Hx. unfold ties. by apply list_elem_of_filter. Qed.

Lemma ties_elem_of (t : Z) (x : Redemption.t) (arr : list Redemption.t) :
  x ∈ ties t arr → x ∈ arr.
Proof. unfold ties. rewrite list_elem_of_filter. tauto. Qed.

(** A newest-first array is determined by its records of each instant:
    whatever stable algorithm the engine uses, the result is the same. *)
Lemma sort_unique (arr1 arr2 : list Redemption.t) :
  Sorted newer arr1 → Sorted newer arr2 →
  (∀ t, ties t arr1 = ties t arr2) → arr1 = arr2.
Proof.
  revert arr2.
  induction arr1 as [|a arr1 IH]; intros arr2 Hs1 Hs2 Hties.
  - destruct arr2 as [|b arr2]; [done|].
    specialize (Hties (Redemption.timestamp b)).
    rewrite ties_cons, decide_True in Hties by done. done.
  - destruct arr2 as [|b arr2].
    { specialize (Hties (Redemption.timestamp a)).
      rewrite ties_cons, decide_True in Hties by done. done. }
    assert (Hab : newer a b).
    { apply (sorted_head_newest a b arr1 Hs1).
      apply (ties_elem_of (Redemption.timestamp b)). rewrite Hties.
      apply elem_of_ties. left. }
    assert (Hba : newer b a).
    { apply (sorted_head_newest b a arr2 Hs2).
      apply (ties_elem_of (Redemption.timestamp a)). rewrite <- Hties.
      apply elem_of_ties. left. }
    assert (Heq : Redemption.timestamp a = Redemption.timestamp b)
      by (unfold newer in *; lia).
    assert (a = b) as <-.
    { specialize (Hties (Redemption.timestamp a)).
      rewrite !ties_cons, decide_True in Hties by done.
      rewrite decide_True in Hties by done. congruence. }
    f_equal. apply IH.
    + by apply Sorted_inv in Hs1 as [? _].
    + by apply Sorted_inv in Hs2 as [? _].
    + intros t. specialize (Hties t). rewrite !ties_cons in Hties.
      case_decide; congruence.
Qed.

Lemma array_sort_sorted_id (arr : list Redemption.t) :
  Sorted newer arr → array_sort newestFirst arr = arr.
Proof.
  intros Hs. apply sort_unique; [apply array_sort_sorted|done|].
  intros t. apply ties_array_sort.
Qed.

Lemma array_sort_idem (arr : list Redemption.t) :
  array_sort newestFirst (array_sort newestFirst arr)
  = array_sort newestFirst arr.
Proof. apply array_sort_sorted_id, array_sort_sorted. Qed.

Lemma array_sort_ties_ext (arr1 arr2 : list Redemption.t) :
  (∀ t, ties t arr1 = ties t arr2) →
  array_sort newestFirst arr1 = array_sort newestFirst arr2.
Proof.
  intros Hties. apply sort_unique; try apply array_sort_sorted.
  intros t. by rewrite !ties_array_sort.
Qed.


Lemma array_sort_eq_perm (arr1 arr2 : list Redemption.t) :
  array_sort newestFirst arr1 = array_sort newestFirst arr2 → arr1 ≡ₚ arr2.
Proof.
  intros Heq.
  by rewrite <- (array_sort_perm arr1), Heq, array_sort_perm.
Qed.
End history_sort.

(** ** Repositories and balance *)

Section service_facts.
Import LoyaltyService.

Lemma userExists_true (ordersByUser : gmap string (list Order.t)) (u : string) :
  OrderRepository.userExists ordersByUser u = true
  ↔ is_Some (ordersByUser !! u).
Proof. unfold OrderRepository.userExists. apply bool_decide_eq_true. Qed.

Lemma userExists_false (ordersByUser : gmap string (list Order.t)) (u : string) :
  OrderRepository.userExists ordersByUser u = false ↔ ordersByUser !! u = None.
Proof.
  unfold OrderRepository.userExists.
  rewrite bool_decide_eq_false, eq_None_not_Some. done.
Qed.

Lemma findByUserId_save_same (repo : gmap string (list Redemption.t))
    (r : Redemption.t) :
  RedemptionRepository.findByUserId (RedemptionRepository.save repo r)
    (Redemption.userId r)
  = RedemptionRepository.findByUserId repo (Redemption.userId r) ++ [r].
Proof.
  unfold RedemptionRepository.findByUserId, RedemptionRepository.save.
  by rewrite lookup_insert_eq.
Qed.

Lemma findByUserId_save_other (repo : gmap string (list Redemption.t))
    (r : Redemption.t) (v : string) :
  Redemption.userId r ≠ v →
  RedemptionRepository.findByUserId (RedemptionRepository.save repo r) v
  = RedemptionRepository.findByUserId repo v.
Proof.
  intros Hne.
  unfold RedemptionRepository.findByUserId, RedemptionRepository.save.
  by rewrite lookup_insert_ne.
Qed.

Lemma findByUserId_alter (repo : gmap string (list Redemption.t))
    (f : list Redemption.t → list Redemption.t) (u v : string) :
  f [] = [] →
  RedemptionRepository.findByUserId (alter f u repo) v
  = if decide (u = v) then f (RedemptionRepository.findByUserId repo v)
    else RedemptionRepository.findByUserId repo v.
Proof.
  intros Hnil. unfold RedemptionRepository.findByUserId.
  rewrite lookup_alter. case_decide as Huv; [|done].
  subst v. by destruct (repo !! u).
Qed.


Lemma balanceOf_locks (this : t) (l : gmap string nat) (v : string) :
  balanceOf (mk (orderRepository this) (redemptionRepository this) l) v
  = balanceOf this v.
Proof. reflexivity. Qed.


(** In the safe range [calculateBalance] returns the exact sums and their
    exact difference. *)
Lemma safe_calculateBalance (this : t) (u : string) :
  safe_amounts (earning this u) → safe_amounts (redeeming this u) →
  calculateBalance this u
  = mkBalance (Number.ofZ (earnedZ this u)) (Number.ofZ (redeemedZ this u))
      (Number.ofZ (earnedZ this u - redeemedZ this u)).
Proof.
  intros He Hr. unfold calculateBalance.
  pose proof (safe_amounts_bounds _ He) as HE.
  pose proof (safe_amounts_bounds _ Hr) as HR.
  rewrite (reduce_sum_safe Order.points) by exact He.
  rewrite (reduce_sum_safe Redemption.points) by exact Hr.
  fold (earning this u) (redeeming this u).
  fold (earnedZ this u) (redeemedZ this u) in *.
  rewrite sub_ofZ by lia. done.
Qed.

Lemma safe_balanceOf (this : t) (u : string) :
  safe this → balanceOf this u = Number.ofZ (earnedZ this u - redeemedZ this u).
Proof.
  intros Hs. destruct (Hs u) as [He Hr]. unfold balanceOf.
  by rewrite safe_calculateBalance.
Qed.

Lemma redeeming_save (this : t) (r : Redemption.t) (l : gmap string nat)
    (u : string) :
  redeeming (mk (orderRepository this)
               (RedemptionRepository.save (redemptionRepository this) r) l) u
  = redeeming this u
    ++ (if decide (Redemption.userId r = u) then [Redemption.points r]
        else []).
Proof.
  unfold redeeming. cbn [redemptionRepository].
  destruct (decide (Redemption.userId r = u)) as [<-|Hne].
  - by rewrite findByUserId_save_same, fmap_app.
  - by rewrite findByUserId_save_other, app_nil_r.
Qed.

(** The four ways through [executeRedemption]. *)
Lemma executeRedemption_cases (this : t) (u : string) (p : Number.t)
    (rid : string) (now : Z) :
  (Number.leb p 0 = true
   ∧ executeRedemption this u p rid now = (Throw BadRequestException, this))
  ∨ (Number.leb p 0 = false
     ∧ OrderRepository.userExists (orderRepository this) u = false
     ∧ executeRedemption this u p rid now
       = (Throw (NotFoundException u), this))
  ∨ (Number.leb p 0 = false
     ∧ OrderRepository.userExists (orderRepository this) u = true
     ∧ Number.ltb (balanceOf this u) p = true
     ∧ executeRedemption this u p rid now
       = (Throw (ConflictException (balanceOf this u) p), this))
  ∨ (Number.leb p 0 = false
     ∧ OrderRepository.userExists (orderRepository this) u = true
     ∧ Number.ltb (balanceOf this u) p = false
     ∧ executeRedemption this u p rid now
       = (Return (RedemptionResponseDto.mk rid u p now
                    (Number.sub (balanceOf this u) p)),
          mk (orderRepository this)
             (RedemptionRepository.save (redemptionRepository this)
                (Redemption.mk rid u p now))
             (activeLocks this))).
Proof.
  unfold executeRedemption, balanceOf.
  destruct (Number.leb p 0) eqn:Hp; [by left|].
  right.
  destruct (OrderRepository.userExists (orderRepository this) u) eqn:Hu;
    cbn [negb]; [|by left].
  right.
  destruct (Number.ltb (balance (calculateBalance this u)) p) eqn:Hb.
  - by left.
  - by right.
Qed.

(** The lock of [redeemPoints] does not show in what [executeRedemption]
    computes, and is gone when the call returns. *)
Lemma redeemPoints_executeRedemption (this : t) (u : string) (p : Number.t)
    (lp : nat) (rid : string) (now : Z) :
  redeemPoints this u p lp rid now
  = ((executeRedemption this u p rid now).1,
     mk (orderRepository this)
        (redemptionRepository (executeRedemption this u p rid now).2)
        (delete u (activeLocks this))).
Proof.
  unfold redeemPoints, executeRedemption, calculateBalance.
  cbn [orderRepository redemptionRepository activeLocks].
  destruct (Number.leb p 0); cbn [fst snd orderRepository
    redemptionRepository activeLocks]; [by rewrite delete_insert_eq|].
  destruct (OrderRepository.userExists (orderRepository this) u);
    cbn [negb fst snd orderRepository redemptionRepository activeLocks];
    [|by rewrite delete_insert_eq].
  destruct (Number.ltb _ p);
    cbn [fst snd orderRepository redemptionRepository activeLocks];
    by rewrite delete_insert_eq.
Qed.

Lemma redeemPoints_cases (this : t) (u : string) (p : Number.t) (lp : nat)
    (rid : string) (now : Z) :
  (Number.leb p 0 = true
   ∧ redeemPoints this u p lp rid now
     = (Throw BadRequestException,
        mk (orderRepository this) (redemptionRepository this)
           (delete u (activeLocks this))))
  ∨ (Number.leb p 0 = false
     ∧ OrderRepository.userExists (orderRepository this) u = false
     ∧ redeemPoints this u p lp rid now
       = (Throw (NotFoundException u),
          mk (orderRepository this) (redemptionRepository this)
             (delete u (activeLocks this))))
  ∨ (Number.leb p 0 = false
     ∧ OrderRepository.userExists (orderRepository this) u = true
     ∧ Number.ltb (balanceOf this u) p = true
     ∧ redeemPoints this u p lp rid now
       = (Throw (ConflictException (balanceOf this u) p),
          mk (orderRepository this) (redemptionRepository this)
             (delete u (activeLocks this))))
  ∨ (Number.leb p 0 = false
     ∧ OrderRepository.userExists (orderRepository this) u = true
     ∧ Number.ltb (balanceOf this u) p = false
     ∧ redeemPoints this u p lp rid now
       = (Return (RedemptionResponseDto.mk rid u p now
                    (Number.sub (balanceOf this u) p)),
          mk (orderRepository this)
             (RedemptionRepository.save (redemptionRepository this)
                (Redemption.mk rid u p now))
             (delete u (activeLocks this)))).
Proof.
  rewrite redeemPoints_executeRedemption.
  destruct (executeRedemption_cases this u p rid now)
    as [[Hp H]|[(Hp & Hu & H)|[(Hp & Hu & Hb & H)|(Hp & Hu & Hb & H)]]];
    rewrite H; simpl.
  - by left.
  - right; left. done.
  - right; right; left. done.
  - right; right; right. done.
Qed.
End service_facts.

(** Case analysis along the four ways through [redeemPoints]; [H] is the
    equation of the case. *)
Ltac redeem_cases this u p lp rid now :=
  destruct (redeemPoints_cases this u p lp rid now)
    as [[Hp H]|[(Hp & Hu & H)|[(Hp & Hu & Hlt & H)|(Hp & Hu & Hle & H)]]].

(** ** One call *)

Section call_facts.
Import LoyaltyService.

Lemma getRedemptionHistory_find (this : t) (u v : string) :
  RedemptionRepository.findByUserId
    (redemptionRepository (getRedemptionHistory this u).2) v
  = if decide (OrderRepository.userExists (orderRepository this) u = true
               ∧ u = v)
    then array_sort newestFirst
           (RedemptionRepository.findByUserId (redemptionRepository this) v)
    else RedemptionRepository.findByUserId (redemptionRepository this) v.
Proof.
  unfold getRedemptionHistory.
  destruct (OrderRepository.userExists (orderRepository this) u);
    cbn [negb snd redemptionRepository].
  - rewrite findByUserId_alter by done.
    destruct (decide (u = v)) as [->|Hne].
    + destruct (decide (true = true ∧ v = v)) as [_|[]]; done.
    + destruct (decide (true = true ∧ u = v)) as [[_ ?]|_]; done.
  - destruct (decide (false = true ∧ u = v)) as [[? _]|_]; done.
Qed.

Lemma getRedemptionHistory_orders (this : t) (u : string) :
  orderRepository (getRedemptionHistory this u).2 = orderRepository this.
Proof.
  unfold getRedemptionHistory.
  by destruct (OrderRepository.userExists (orderRepository this) u).
Qed.

Lemma getRedemptionHistory_same_view (this : t) (u : string) :
  same_view this (getRedemptionHistory this u).2.
Proof.
  split; [by rewrite getRedemptionHistory_orders|].
  intros v. rewrite getRedemptionHistory_find.
  case_decide; [|done]. by rewrite array_sort_idem.
Qed.

Lemma same_view_refl (this : t) : same_view this this.
Proof. by split. Qed.





Lemma run_cons (this : t) (c : Call) (calls : list Call) :
  run this (c :: calls)
  = ((call this c).1 :: (run (call this c).2 calls).1,
     (run (call this c).2 calls).2).
Proof.
  simpl. destruct (call this c) as [r this']. simpl.
  by destruct (run this' calls).
Qed.

Lemma read_same_view (this : t) (c : Call) :
  is_read c = true → same_view this (call this c).2.
Proof.
  destruct c as [u|u p lp rid now|u]; intros Hc; try discriminate.
  - apply same_view_refl.
  - pose proof (getRedemptionHistory_same_view this u) as H. simpl.
    by destruct (getRedemptionHistory this u).
Qed.


Lemma call_orders (this : t) (c : Call) :
  orderRepository (call this c).2 = orderRepository this.
Proof.
  destruct c as [u|u p lp rid now|u]; simpl; [done| |].
  - by redeem_cases this u p lp rid now;
      rewrite H.
  - pose proof (getRedemptionHistory_orders this u) as H.
    by destruct (getRedemptionHistory this u).
Qed.

Lemma run_orders (this : t) (calls : list Call) :
  orderRepository (run this calls).2 = orderRepository this.
Proof.
  revert this. induction calls as [|c calls IH]; intros this; [done|].
  rewrite run_cons. simpl. by rewrite IH, call_orders.
Qed.

End call_facts.

(** ** Runs *)

Section run_facts.
Import LoyaltyService.

Lemma appended_cons (this : t) (c : Call) (calls : list Call) (u : string) :
  appended this (c :: calls) u
  = appended this [c] u ++ appended (call this c).2 calls u.
Proof.
  simpl. destruct (call this c) as [r this']. simpl.
  by rewrite app_nil_r.
Qed.

Lemma appended_redeem (this : t) (v : string) (p : Number.t) (lp : nat)
    (rid : string) (now : Z) (u : string) :
  appended this [RedeemPoints v p lp rid now] u
  = match (redeemPoints this v p lp rid now).1 with
    | Return _ =>
        if decide (v = u) then [Redemption.mk rid v p now] else []
    | Throw _ => []
    end.
Proof.
  simpl. destruct (redeemPoints this v p lp rid now) as [[dto|e] this'];
    simpl; by rewrite ?app_nil_r.
Qed.

Lemma appended_read (this : t) (c : Call) (u : string) :
  is_read c = true → appended this [c] u = [].
Proof.
  destruct c as [v|v p lp rid now|v]; intros Hc; try discriminate.
  - reflexivity.
  - simpl. by destruct (getRedemptionHistory this v).
Qed.

(** After a call the stored array of a user has, instant by instant, what
    it had before followed by what the call appended. *)
Lemma call_ties (this : t) (c : Call) (t : Z) (u : string) :
  ties t (RedemptionRepository.findByUserId
            (redemptionRepository (call this c).2) u)
  = ties t (RedemptionRepository.findByUserId (redemptionRepository this) u
            ++ appended this [c] u).
Proof.
  destruct c as [v|v p lp rid now|v].
  - rewrite appended_read by done. simpl. by rewrite app_nil_r.
  - rewrite appended_redeem.
    change (call this (RedeemPoints v p lp rid now)).2
      with (let '(r, this') := redeemPoints this v p lp rid now in
            (RedemptionResponse r, this')).2.
    redeem_cases this v p lp rid now;
      rewrite H; cbn [fst snd redemptionRepository];
      rewrite ?app_nil_r; try done.
    destruct (decide (v = u)) as [->|Hne].
    + by rewrite (findByUserId_save_same _ (Redemption.mk rid u p now)).
    + rewrite (findByUserId_save_other _ (Redemption.mk rid v p now)) by done.
      by rewrite app_nil_r.
  - rewrite appended_read by done.
    change (call this (GetRedemptionHistory v)).2
      with (let '(r, this') := getRedemptionHistory this v in
            (HistoryResponse r, this')).2.
    pose proof (getRedemptionHistory_find this v u) as Hf.
    destruct (getRedemptionHistory this v) as [r this']. simpl in *.
    rewrite app_nil_r, Hf. case_decide; [|done]. apply ties_array_sort.
Qed.

Lemma run_ties (this : t) (calls : list Call) (t : Z) (u : string) :
  ties t (RedemptionRepository.findByUserId
            (redemptionRepository (run this calls).2) u)
  = ties t (RedemptionRepository.findByUserId (redemptionRepository this) u
            ++ appended this calls u).
Proof.
  revert this. induction calls as [|c calls IH]; intros this.
  - simpl. by rewrite app_nil_r.
  - rewrite run_cons, appended_cons. cbn [snd].
    rewrite IH, !ties_app, call_ties, !ties_app.
    by rewrite app_assoc.
Qed.

Lemma run_sorted (this : t) (calls : list Call) (u : string) :
  array_sort newestFirst
    (RedemptionRepository.findByUserId
       (redemptionRepository (run this calls).2) u)
  = array_sort newestFirst
      (RedemptionRepository.findByUserId (redemptionRepository this) u
       ++ appended this calls u).
Proof. apply array_sort_ties_ext. intros t. apply run_ties. Qed.

Lemma run_stored (this : t) (calls : list Call) (u : string) :
  RedemptionRepository.findByUserId (redemptionRepository (run this calls).2) u
  ≡ₚ RedemptionRepository.findByUserId (redemptionRepository this) u
     ++ appended this calls u.
Proof. apply array_sort_eq_perm, run_sorted. Qed.

End run_facts.

(** ** The safe range *)

Section safe_facts.
Import LoyaltyService.

Lemma same_view_earning (this1 this2 : t) (u : string) :
  same_view this1 this2 → earning this1 u = earning this2 u.
Proof. intros [Ho _]. unfold earning. by rewrite Ho. Qed.

Lemma same_view_redeeming (this1 this2 : t) (u : string) :
  same_view this1 this2 → redeeming this1 u ≡ₚ redeeming this2 u.
Proof.
  intros [_ Hr]. unfold redeeming. apply fmap_Permutation.
  apply array_sort_eq_perm, Hr.
Qed.

Lemma same_view_safe (this1 this2 : t) :
  same_view this1 this2 → safe this1 → safe this2.
Proof.
  intros Hv Hs u. destruct (Hs u) as [He Hr]. split.
  - by rewrite <- (same_view_earning this1 this2 u Hv).
  - eapply safe_amounts_perm; [|exact Hr]. by apply same_view_redeeming.
Qed.





(** The four ways through [redeemPoints] for an integer amount in the safe
    range, in integers. *)
Lemma safe_redeemPoints_cases (this : t) (u : string) (n : Z) (lp : nat)
    (rid : string) (now : Z) :
  safe this →
  let available := earnedZ this u - redeemedZ this u in
  (n ≤ 0
   ∧ redeemPoints this u (Number.ofZ n) lp rid now
     = (Throw BadRequestException,
        mk (orderRepository this) (redemptionRepository this)
           (delete u (activeLocks this))))
  ∨ (0 < n ∧ OrderRepository.userExists (orderRepository this) u = false
     ∧ redeemPoints this u (Number.ofZ n) lp rid now
       = (Throw (NotFoundException u),
          mk (orderRepository this) (redemptionRepository this)
             (delete u (activeLocks this))))
  ∨ (0 < n ∧ OrderRepository.userExists (orderRepository this) u = true
     ∧ available < n
     ∧ redeemPoints this u (Number.ofZ n) lp rid now
       = (Throw (ConflictException (Number.ofZ available) (Number.ofZ n)),
          mk (orderRepository this) (redemptionRepository this)
             (delete u (activeLocks this))))
  ∨ (0 < n ∧ OrderRepository.userExists (orderRepository this) u = true
     ∧ n ≤ available
     ∧ redeemPoints this u (Number.ofZ n) lp rid now
       = (Return (RedemptionResponseDto.mk rid u (Number.ofZ n) now
                    (Number.ofZ (available - n))),
          mk (orderRepository this)
             (RedemptionRepository.save (redemptionRepository this)
                (Redemption.mk rid u (Number.ofZ n) now))
             (delete u (activeLocks this)))).
Proof.
  intros Hs available.
  destruct (Hs u) as [He Hr].
  pose proof (safe_amounts_bounds _ He) as HE.
  pose proof (safe_amounts_bounds _ Hr) as HR.
  fold (earnedZ this u) in HE. fold (redeemedZ this u) in HR.
  redeem_cases this u (Number.ofZ n) lp rid now; rewrite H;
    rewrite ?(safe_balanceOf this u Hs) in *;
    change (Number.leb (Number.ofZ n) 0)
      with (Number.leb (Number.ofZ n) (Number.ofZ 0)) in Hp;
    rewrite leb_ofZ in Hp; rewrite ?ltb_ofZ in *.
  - apply bool_decide_eq_true in Hp. by left.
  - apply bool_decide_eq_false in Hp. right; left. split; [lia|done].
  - apply bool_decide_eq_false in Hp. apply bool_decide_eq_true in Hlt.
    right; right; left. split_and!; [lia|done|done|done].
  - apply bool_decide_eq_false in Hp. apply bool_decide_eq_false in Hle.
    right; right; right. fold available in Hle |- *.
    split_and!; [lia|done|lia|].
    rewrite sub_ofZ; [done|]. subst available. lia.
Qed.

(** A call with an integer amount keeps the service in the safe range. *)
Lemma call_safe (this : t) (c : Call) :
  safe this → integer_call c → safe (call this c).2.
Proof.
  intros Hs Hc. destruct c as [v|v p lp rid now|v].
  - done.
  - cbn [integer_call] in Hc. rewrite Hc.
    change (call this (RedeemPoints v (Number.ofZ (Number.toZ p)) lp rid now)).2
      with (let '(r, this') :=
              redeemPoints this v (Number.ofZ (Number.toZ p)) lp rid now in
            (RedemptionResponse r, this')).2.
    destruct (safe_redeemPoints_cases this v (Number.toZ p) lp rid now Hs)
      as [[Hp H]|[(Hp & Hu & H)|[(Hp & Hu & Hlt & H)|(Hp & Hu & Hle & H)]]];
      rewrite H; cbn [snd]; try exact Hs.
    intros u. destruct (Hs u) as [He Hr]. split; [exact He|].
    rewrite redeeming_save. cbn [Redemption.userId Redemption.points].
    destruct (decide (v = u)) as [->|Hne]; [|by rewrite app_nil_r].
    destruct Hr as [Hw Hb].
    pose proof (safe_amounts_bounds _ He) as HE.
    apply safe_amounts_snoc; [done|lia|].
    fold (redeemedZ this u). fold (earnedZ this u) in HE. lia.
  - eapply same_view_safe; [|exact Hs]. by apply read_same_view.
Qed.

Lemma run_safe (this : t) (calls : list Call) :
  safe this → Forall integer_call calls → safe (run this calls).2.
Proof.
  intros Hs Hcalls. revert this Hs.
  induction Hcalls as [|c calls Hc _ IH]; intros this Hs; [done|].
  rewrite run_cons. cbn [snd]. by apply IH, call_safe.
Qed.



Lemma earnedZ_run (this : t) (calls : list Call) (u : string) :
  earnedZ (run this calls).2 u = earnedZ this u.
Proof. unfold earnedZ, earning. by rewrite run_orders. Qed.

Lemma redeemedZ_run (this : t) (calls : list Call) (u : string) :
  redeemedZ (run this calls).2 u
  = redeemedZ this u
    + total (Number.toZ <$> (Redemption.points <$> appended this calls u)).
Proof.
  unfold redeemedZ, redeeming.
  rewrite <- total_app, <- !fmap_app.
  apply total_perm. do 2 apply fmap_Permutation. apply run_stored.
Qed.

(** A call with an integer amount never records more than the balance
    covers. *)
Lemma call_covered (this : t) (c : Call) (u : string) :
  safe this → integer_call c →
  redeemedZ this u ≤ earnedZ this u →
  redeemedZ (call this c).2 u ≤ earnedZ (call this c).2 u.
Proof.
  intros Hs Hc Hcov.
  pose proof (earnedZ_run this [c] u) as HE.
  pose proof (redeemedZ_run this [c] u) as HR.
  rewrite run_cons in HE, HR. cbn [snd run] in HE, HR. rewrite HE, HR.
  destruct c as [v|v p lp rid now|v].
  - rewrite appended_read by done. simpl. lia.
  - cbn [integer_call] in Hc. rewrite Hc. rewrite appended_redeem.
    destruct (safe_redeemPoints_cases this v (Number.toZ p) lp rid now Hs)
      as [[Hp H]|[(Hp & Hu & H)|[(Hp & Hu & Hlt & H)|(Hp & Hu & Hle & H)]]];
      rewrite H; cbn [fst]; try (simpl; lia).
    destruct (decide (v = u)) as [->|Hne]; [|simpl; lia].
    change (total (Number.toZ
                     <$> (Redemption.points
                            <$> [Redemption.mk rid u
                                   (Number.ofZ (Number.toZ p)) now])))
      with (Number.toZ (Number.ofZ (Number.toZ p)) + 0).
    rewrite toZ_ofZ. lia.
  - rewrite appended_read by done. simpl. lia.
Qed.

Lemma run_covered (this : t) (calls : list Call) (u : string) :
  safe this → Forall integer_call calls →
  redeemedZ this u ≤ earnedZ this u →
  redeemedZ (run this calls).2 u ≤ earnedZ (run this calls).2 u.
Proof.
  intros Hs Hcalls. revert this Hs.
  induction Hcalls as [|c calls Hc _ IH]; intros this Hs Hcov; [done|].
  rewrite run_cons. cbn [snd].
  apply IH; [by apply call_safe|by apply call_covered].
Qed.

(** In the safe range the balance is at least zero exactly when the
    redemptions are covered by the earnings. *)
Lemma safe_balance_nonneg (this : t) (u : string) :
  safe this →
  Number.leb 0 (balanceOf this u) = true ↔ redeemedZ this u ≤ earnedZ this u.
Proof.
  intros Hs. rewrite (safe_balanceOf this u Hs).
  change (Number.leb 0 ?x) with (Number.leb (Number.ofZ 0) x).
  rewrite leb_ofZ, bool_decide_eq_true. lia.
Qed.

Lemma call_newBalance_nonneg (this : t) (c : Call)
    (dto : RedemptionResponseDto.t) :
  safe this → integer_call c →
  (call this c).1 = RedemptionResponse (Return dto) →
  Number.leb 0 (RedemptionResponseDto.newBalance dto) = true.
Proof.
  intros Hs Hc. destruct c as [v|v p lp rid now|v]; cbn [call].
  - done.
  - cbn [integer_call] in Hc. rewrite Hc.
    destruct (safe_redeemPoints_cases this v (Number.toZ p) lp rid now Hs)
      as [[Hp H]|[(Hp & Hu & H)|[(Hp & Hu & Hlt & H)|(Hp & Hu & Hle & H)]]];
      rewrite H; cbn [fst]; intros [= <-].
    cbn [RedemptionResponseDto.newBalance].
    change (Number.leb 0 ?x) with (Number.leb (Number.ofZ 0) x).
    rewrite leb_ofZ, bool_decide_eq_true. lia.
  - by destruct (getRedemptionHistory this v).
Qed.

Lemma run_newBalance_nonneg (this : t) (calls : list Call) :
  safe this → Forall integer_call calls →
  Forall (fun r => ∀ dto, r = RedemptionResponse (Return dto) →
            Number.leb 0 (RedemptionResponseDto.newBalance dto) = true)
    (run this calls).1.
Proof.
  intros Hs Hcalls. revert this Hs.
  induction Hcalls as [|c calls Hc _ IH]; intros this Hs.
  - constructor.
  - rewrite run_cons. cbn [fst]. constructor.
    + intros dto. by apply call_newBalance_nonneg.
    + by apply IH, call_safe.
Qed.
End safe_facts.

(** ** Calls in flight *)

Section event_loop_facts.
Import LoyaltyService.
Import EventLoop.

Lemma redeemPoints_locks (this : LoyaltyService.t) (u : string) (p : Number.t)
    (lp : nat) (rid : string) (now : Z) :
  activeLocks (redeemPoints this u p lp rid now).2
  = delete u (activeLocks this).
Proof. by rewrite redeemPoints_executeRedemption. Qed.

Lemma critical_eq (σ : EventLoop.t) (i : nat) (task : Task) (now : Z) :
  critical σ i task now
  = EventLoop.mk
      (redeemPoints (service σ) (userId task) (points task) (nextPromise σ)
         (redemptionId task) now).2
      ({[nextPromise σ]} ∪ resolved σ) (S (nextPromise σ))
      (<[i := mkTask (userId task) (points task) (redemptionId task)
                (Settled (redeemPoints (service σ) (userId task)
                            (points task) (nextPromise σ)
                            (redemptionId task) now).1)]> (tasks σ)).
Proof.
  unfold critical.
  by destruct (redeemPoints (service σ) (userId task) (points task)
                 (nextPromise σ) (redemptionId task) now).
Qed.

Lemma launch_settled_or_new (this : LoyaltyService.t)
    (requests : list (string * Number.t * string)) :
  activeLocks this = ∅ → settled_or_new requests (launch this requests).
Proof.
  intros Hl. split; [done|]. simpl.
  induction requests as [|[[u p] rid] requests IH]; constructor; [|done].
  split; [done|]. intros l. discriminate.
Qed.

(** With no lock registered a call that gets the processor runs its
    critical section: it is one of the requests, not yet started, and it
    is served as a call of [redeemPoints] on the service as it is. *)
Lemma advance_settled_or_new (requests : list (string * Number.t * string))
    (σ σ' : EventLoop.t) (i : nat) (now : Z) :
  settled_or_new requests σ → advance σ i now = Some σ' →
  ∃ u p rid,
    requests !! i = Some (u, p, rid)
    ∧ tasks σ !! i = Some (mkTask u p rid Called)
    ∧ σ' = critical σ i (mkTask u p rid Called) now
    ∧ settled_or_new requests σ'.
Proof.
  intros [Hlocks Htasks] Hadv. unfold advance in Hadv.
  destruct (tasks σ !! i) as [task|] eqn:Hi; [|done].
  destruct (Forall2_lookup_l _ _ _ _ _ Htasks Hi)
    as ([[u p] rid] & Hreq & Hfor & Hnw).
  destruct task as [u' p' rid' st]. simpl in *.
  injection Hfor as -> -> ->.
  destruct st as [|l|r]; [|by destruct (Hnw l)|done].
  rewrite Hlocks, lookup_empty in Hadv. injection Hadv as <-.
  exists u, p, rid. split_and!; [done..|].
  rewrite critical_eq. split; cbn [service tasks userId points redemptionId].
  - by rewrite redeemPoints_locks, Hlocks, delete_empty.
  - rewrite <- (list_insert_id requests i (u, p, rid)) by done.
    apply Forall2_insert; [done|].
    split; [done|]. intros l. discriminate.
Qed.

Lemma advance_other (σ σ' : EventLoop.t) (i j : nat) (now : Z) :
  advance σ j now = Some σ' → i ≠ j → tasks σ' !! i = tasks σ !! i.
Proof.
  intros Hadv Hne. unfold advance in Hadv.
  destruct (tasks σ !! j) as [task|]; [|done].
  destruct (stage task) as [|l|r]; [| |done].
  - destruct (activeLocks (service σ) !! userId task);
      injection Hadv as <-; [|rewrite critical_eq];
      cbn [tasks]; by rewrite list_lookup_insert_ne.
  - case_decide; [|done]. injection Hadv as <-. rewrite critical_eq.
    cbn [tasks]. by rewrite list_lookup_insert_ne.
Qed.

Lemma advance_returned (σ : EventLoop.t) (i : nat) (now : Z) (task : Task) :
  tasks σ !! i = Some task → is_Some (response_of task) →
  advance σ i now = None.
Proof.
  intros Hi [r Hr]. unfold advance. rewrite Hi.
  unfold response_of in Hr. by destruct (stage task).
Qed.

(** A call that has returned stays as it is. *)
Lemma exec_returned (σ σ' : EventLoop.t) (schedule : list (nat * Z))
    (i : nat) (task : Task) :
  exec σ schedule = Some σ' →
  tasks σ !! i = Some task → is_Some (response_of task) →
  tasks σ' !! i = Some task.
Proof.
  revert σ. induction schedule as [|[j now] schedule IH]; intros σ Hex Hi Hr.
  - by injection Hex as <-.
  - simpl in Hex. destruct (advance σ j now) as [σ1|] eqn:Hadv; [|done].
    apply (IH σ1); [done| |done].
    destruct (decide (i = j)) as [->|Hne].
    + by rewrite (advance_returned σ j now task) in Hadv.
    + by rewrite (advance_other σ σ1 i j now).
Qed.

(** Linearization: a schedule leaves the service as the same calls made
    one after the other in the order of the schedule leave it, and every
    call has returned what the call in that sequence returns. *)
Lemma exec_sequential (requests : list (string * Number.t * string))
    (σ σ' : EventLoop.t) (schedule : list (nat * Z)) :
  settled_or_new requests σ → exec σ schedule = Some σ' →
  let calls := sequential requests (nextPromise σ) schedule in
  service σ' = (run (service σ) calls).2
  ∧ settled_or_new requests σ'
  ∧ Forall2 (fun s resp =>
               ∃ task, tasks σ' !! s.1 = Some task
                       ∧ response_of task = Some resp)
      schedule (run (service σ) calls).1
  ∧ Forall2 (fun s c =>
               ∃ u p lp rid, requests !! s.1 = Some (u, p, rid)
                             ∧ c = RedeemPoints u p lp rid s.2)
      schedule calls.
Proof.
  revert σ. induction schedule as [|[i now] schedule IH]; intros σ Hinv Hex.
  - injection Hex as <-. simpl. split_and!; [done..|constructor|constructor].
  - simpl in Hex. destruct (advance σ i now) as [σ1|] eqn:Hadv; [|done].
    destruct (advance_settled_or_new requests σ σ1 i now Hinv Hadv)
      as (u & p & rid & Hreq & Hi & Hσ1 & Hinv1).
    destruct (IH σ1 Hinv1 Hex) as (Hserv & Hinv' & Hresp & Hcalls).
    rewrite critical_eq in Hσ1.
    cbn [userId points redemptionId] in Hσ1.
    assert (Hnext : nextPromise σ1 = S (nextPromise σ)) by by subst σ1.
    assert (Hs1 : service σ1
                  = (call (service σ)
                       (RedeemPoints u p (nextPromise σ) rid now)).2).
    { subst σ1. simpl.
      by destruct (redeemPoints (service σ) u p (nextPromise σ) rid now). }
    assert (Hr1 : (call (service σ)
                     (RedeemPoints u p (nextPromise σ) rid now)).1
                  = RedemptionResponse
                      (redeemPoints (service σ) u p (nextPromise σ) rid
                         now).1).
    { simpl.
      by destruct (redeemPoints (service σ) u p (nextPromise σ) rid now). }
    cbn [sequential]. rewrite Hreq, run_cons. cbn [fst snd].
    rewrite <- Hs1, <- Hnext.
    split_and!; [done|done| |].
    + constructor; [|done]. cbn [fst].
      eexists. split.
      * apply (exec_returned σ1 σ' schedule i _ Hex).
        -- subst σ1. cbn [tasks]. apply list_lookup_insert_eq.
           by apply lookup_lt_Some in Hi.
        -- by eexists.
      * by rewrite Hr1.
    + constructor; [|done]. cbn [fst snd]. by exists u, p, (nextPromise σ), rid.
Qed.

(** Every call is served at most once. *)
Lemma exec_once (requests : list (string * Number.t * string))
    (σ σ' : EventLoop.t) (schedule : list (nat * Z)) :
  settled_or_new requests σ → exec σ schedule = Some σ' →
  NoDup schedule.*1
  ∧ ∀ i, i ∈ schedule.*1 →
         ∃ task, tasks σ !! i = Some task ∧ stage task = Called.
Proof.
  revert σ. induction schedule as [|[i now] schedule IH]; intros σ Hinv Hex.
  - split; [constructor|]. intros i Hi. by apply elem_of_nil in Hi.
  - simpl in Hex. destruct (advance σ i now) as [σ1|] eqn:Hadv; [|done].
    destruct (advance_settled_or_new requests σ σ1 i now Hinv Hadv)
      as (u & p & rid & Hreq & Hi & Hσ1 & Hinv1).
    destruct (IH σ1 Hinv1 Hex) as [Hnd Hcalled].
    assert (Hnotin : i ∉ schedule.*1).
    { intros Hin. destruct (Hcalled i Hin) as (task & Ht & Hst).
      rewrite Hσ1, critical_eq in Ht. cbn [tasks] in Ht.
      rewrite list_lookup_insert_eq in Ht
        by by apply lookup_lt_Some in Hi.
      injection Ht as <-. done. }
    split; [by constructor|].
    intros j Hj. cbn [fmap list_fmap fst] in Hj.
    apply elem_of_cons in Hj as [->|Hj]; [by eexists|].
    destruct (Hcalled j Hj) as (task & Ht & Hst).
    exists task. split; [|done].
    rewrite <- (advance_other σ σ1 j i now Hadv); [done|].
    intros ->. done.
Qed.


Lemma advance_called (requests : list (string * Number.t * string))
    (σ : EventLoop.t) (i : nat) (now : Z) (task : Task) :
  settled_or_new requests σ → tasks σ !! i = Some task →
  stage task = Called → advance σ i now = Some (critical σ i task now).
Proof.
  intros [Hlocks _] Hi Hst. unfold advance.
  by rewrite Hi, Hst, Hlocks, lookup_empty.
Qed.

Lemma exec_all_called (requests : list (string * Number.t * string))
    (σ : EventLoop.t) (order : list nat) (instants : list Z) :
  settled_or_new requests σ → NoDup order →
  (∀ i, i ∈ order →
        ∃ task, tasks σ !! i = Some task ∧ stage task = Called) →
  length instants = length order →
  ∃ σ', exec σ (zip order instants) = Some σ'
        ∧ settled_or_new requests σ'
        ∧ ∀ i, i ∈ order →
               ∃ task, tasks σ' !! i = Some task
                       ∧ is_Some (response_of task).
Proof.
  revert σ instants.
  induction order as [|i order IH]; intros σ instants Hinv Hnd Hcalled Hlen.
  - exists σ. split_and!; [done..|]. intros i Hi. by apply elem_of_nil in Hi.
  - destruct instants as [|now instants]; [done|].
    apply NoDup_cons in Hnd as [Hnotin Hnd].
    destruct (Hcalled i) as (task & Hi & Hst); [left|].
    pose proof (advance_called requests σ i now task Hinv Hi Hst) as Hadv.
    destruct (advance_settled_or_new requests σ _ i now Hinv Hadv)
      as (_ & _ & _ & _ & _ & _ & Hinv1).
    destruct (IH (critical σ i task now) instants Hinv1 Hnd)
      as (σ' & Hex & Hinv' & Hret).
    { intros j Hj. destruct (Hcalled j) as (tj & Htj & Hstj); [by right|].
      exists tj. split; [|done].
      rewrite (advance_other σ _ j i now Hadv); [done|].
      intros ->. done. }
    { simpl in Hlen. lia. }
    exists σ'. cbn [zip zip_with exec]. rewrite Hadv.
    split_and!; [done..|].
    intros j Hj. apply elem_of_cons in Hj as [->|Hj]; [|by apply Hret].
    rewrite critical_eq in Hex. eexists. split.
    { apply (exec_returned _ σ' (zip order instants) i _ Hex).
      - cbn [tasks]. apply list_lookup_insert_eq.
        by apply lookup_lt_Some in Hi.
      - by eexists. }
    by eexists.
Qed.

End event_loop_facts.

(** ** Requests of one user served in order *)

Section served_facts.
Import LoyaltyService.


Lemma redeemedZ_save_same (this : t) (rid u : string) (n now : Z)
    (l : gmap string nat) :
  redeemedZ
    (mk (orderRepository this)
        (RedemptionRepository.save (redemptionRepository this)
           (Redemption.mk rid u (Number.ofZ n) now)) l) u
  = redeemedZ this u + n.
Proof.
  unfold redeemedZ. rewrite redeeming_save.
  cbn [Redemption.userId Redemption.points].
  rewrite decide_True by done. rewrite fmap_app, total_app.
  change (total (Number.toZ <$> [Number.ofZ n]))
    with (Number.toZ (Number.ofZ n) + 0).
  rewrite toZ_ofZ. lia.
Qed.

(** Requests of one existing user with positive integer amounts, made one
    after the other in the safe range, are answered as [served] says. *)
Lemma run_served (this : t) (calls : list Call) (u : string) :
  safe this →
  OrderRepository.userExists (orderRepository this) u = true →
  Forall (fun c => ∃ n lp rid now,
            c = RedeemPoints u (Number.ofZ n) lp rid now ∧ 0 < n) calls →
  let amounts := Number.toZ <$> (amount <$> calls) in
  Forall2 outcome (run this calls).1
    (served (earnedZ this u - redeemedZ this u) amounts)
  ∧ total (Number.toZ <$> (Redemption.points <$> appended this calls u))
    = total (accepted (earnedZ this u - redeemedZ this u) amounts).
Proof.
  intros Hs Hu Hcalls. revert this Hs Hu.
  induction Hcalls as [|c calls (n & lp & rid & now & -> & Hn) _ IH];
    intros this Hs Hu.
  - split; [constructor|done].
  - intros amounts. subst amounts.
    rewrite run_cons, appended_cons, appended_redeem, !fmap_app, total_app.
    rewrite !fmap_cons. cbn [amount]. rewrite toZ_ofZ.
    cbn [fst snd served accepted].
    change (call this (RedeemPoints u (Number.ofZ n) lp rid now))
      with (let '(r, this') :=
              redeemPoints this u (Number.ofZ n) lp rid now in
            (RedemptionResponse r, this')).
    destruct (safe_redeemPoints_cases this u n lp rid now Hs)
      as [[Hp H]|[(_ & Hu' & H)|[(_ & _ & Hlt & H)|(_ & _ & Hle & H)]]];
      [lia|congruence| |]; rewrite H; cbn [fst snd].
    + destruct (decide (n ≤ earnedZ this u - redeemedZ this u)); [lia|].
      destruct (IH (mk (orderRepository this) (redemptionRepository this)
                       (delete u (activeLocks this)))) as [IH1 IH2];
        [exact Hs|exact Hu|].
      split; [by constructor|]. simpl. exact IH2.
    + destruct (decide (n ≤ earnedZ this u - redeemedZ this u)); [|lia].
      destruct (decide (u = u)); [|done].
      assert (Hs' : safe (mk (orderRepository this)
                            (RedemptionRepository.save
                               (redemptionRepository this)
                               (Redemption.mk rid u (Number.ofZ n) now))
                            (delete u (activeLocks this)))).
      { pose proof (call_safe this (RedeemPoints u (Number.ofZ n) lp rid now)
                      Hs) as Hcs.
        cbn [call integer_call] in Hcs. rewrite H in Hcs. cbn [snd] in Hcs.
        apply Hcs. by rewrite toZ_ofZ. }
      destruct (IH _ Hs' Hu) as [IH1 IH2].
      rewrite redeemedZ_save_same in IH1, IH2.
      change (earnedZ (mk (orderRepository this) _ _) u)
        with (earnedZ this u) in IH1, IH2.
      replace (earnedZ this u - (redeemedZ this u + n))
        with (earnedZ this u - redeemedZ this u - n) in IH1, IH2 by lia.
      split.
      * constructor; [|exact IH1]. simpl. eauto.
      * change (total (Number.toZ
                         <$> (Redemption.points
                                <$> [Redemption.mk rid u (Number.ofZ n) now])))
          with (Number.toZ (Number.ofZ n) + 0).
        rewrite toZ_ofZ. cbn [total]. rewrite IH2. lia.
Qed.
End served_facts.

(** ** The seed data *)

Section seed_facts.
Import LoyaltyService.

(** The seed data are in the safe range, with every balance at least
    zero. *)
Lemma fresh_safe : safe fresh.
Proof.
  intros userId.
  unfold earning, redeeming, fresh, OrderRepository.findByUserId,
    RedemptionRepository.findByUserId, OrderRepository.seedStubData,
    RedemptionRepository.seedStubData.
  cbn [orderRepository redemptionRepository].
  destruct (decide (userId = "eve")) as [->|?];
    [split; apply (bool_decide_unpack _); by vm_compute|].
  destruct (decide (userId = "dave")) as [->|?];
    [split; apply (bool_decide_unpack _); by vm_compute|].
  destruct (decide (userId = "charlie")) as [->|?];
    [split; apply (bool_decide_unpack _); by vm_compute|].
  destruct (decide (userId = "bob")) as [->|?];
    [split; apply (bool_decide_unpack _); by vm_compute|].
  destruct (decide (userId = "alice")) as [->|?];
    [split; apply (bool_decide_unpack _); by vm_compute|].
  rewrite !lookup_insert_ne, !lookup_empty by done.
  split; apply (bool_decide_unpack _); by vm_compute.
Qed.

Lemma fresh_balances (userId : string) :
  Number.leb 0 (balanceOf fresh userId) = true.
Proof.
  unfold balanceOf, calculateBalance, fresh, OrderRepository.findByUserId,
    RedemptionRepository.findByUserId, OrderRepository.seedStubData,
    RedemptionRepository.seedStubData.
  cbn [orderRepository redemptionRepository balance].
  destruct (decide (userId = "eve")) as [->|?]; [by vm_compute|].
  destruct (decide (userId = "dave")) as [->|?]; [by vm_compute|].
  destruct (decide (userId = "charlie")) as [->|?]; [by vm_compute|].
  destruct (decide (userId = "bob")) as [->|?]; [by vm_compute|].
  destruct (decide (userId = "alice")) as [->|?]; [by vm_compute|].
  rewrite !lookup_insert_ne, !lookup_empty by done. by vm_compute.
Qed.
End seed_facts.

(** * The claims *)

Section claims.
Import LoyaltyService.




(** C3, as the code has it.  When [redeemPoints] succeeds, the [newBalance]
    it returns is the balance at acceptance minus the points, as numbers;
    the new record, with the id generated for the call, the given user and
    points, and the instant of the call, is the last element of what the
    repository returns for the user once the call has returned, and is part
    of the history.  When the stored amounts are whole numbers in the safe
    range and the points are a whole number, the [newBalance] is exactly
    the old balance minus the points, and a [getBalance] made next reports
    that balance, the earned points as before and the redeemed points
    grown by the points. *)
Theorem redeemPoints_success (this this' : t) (userId : string)
    (points : Number.t) (lockPromise : nat) (redemptionId : string) (now : Z)
    (dto : RedemptionResponseDto.t) :
  redeemPoints this userId points lockPromise redemptionId now
  = (Return dto, this') →
  let record := Redemption.mk redemptionId userId points now in
  dto = RedemptionResponseDto.mk redemptionId userId points now
          (Number.sub (balanceOf this userId) points)
  ∧ RedemptionRepository.findByUserId (redemptionRepository this') userId
    = RedemptionRepository.findByUserId (redemptionRepository this) userId
      ++ [record]
  ∧ (∃ h, (getRedemptionHistory this' userId).1 = Return h
          ∧ toRecordDto record ∈ RedemptionHistory.redemptions h)
  ∧ (safe this → points = Number.ofZ (Number.toZ points) →
     let old := earnedZ this userId - redeemedZ this userId in
     balanceOf this userId = Number.ofZ old
     ∧ 0 < Number.toZ points ≤ old
     ∧ RedemptionResponseDto.newBalance dto
       = Number.ofZ (old - Number.toZ points)
     ∧ getBalance this' userId
       = Return (BalanceResponseDto.mk userId
                   (Number.ofZ (old - Number.toZ points))
                   (Number.ofZ (earnedZ this userId))
                   (Number.ofZ (redeemedZ this userId + Number.toZ points)))).
Proof.
  intros Hcall record.
  assert (Hfind :
    RedemptionRepository.findByUserId
      (RedemptionRepository.save (redemptionRepository this) record) userId
    = RedemptionRepository.findByUserId (redemptionRepository this) userId
      ++ [record])
    by apply (findByUserId_save_same _ record).
  redeem_cases this userId points lockPromise redemptionId now;
    rewrite H in Hcall; try discriminate.
  injection Hcall as Hdto Hthis. subst dto this'.
  split_and!; [done|done| |].
  - unfold getRedemptionHistory. cbn [orderRepository redemptionRepository].
    rewrite Hu. cbn [negb fst]. eexists. split; [done|].
    cbn [RedemptionHistory.redemptions].
    apply list_elem_of_fmap_2.
    fold record. rewrite array_sort_perm, Hfind. set_solver.
  - intros Hsafe Hint old.
    set (n := Number.toZ points) in *.
    assert (Hsafe' :
      safe (mk (orderRepository this)
              (RedemptionRepository.save (redemptionRepository this) record)
              (delete userId (activeLocks this)))).
    { pose proof (call_safe this
                    (RedeemPoints userId points lockPromise redemptionId now)
                    Hsafe Hint) as Hs.
      cbn [call] in Hs. rewrite H in Hs. exact Hs. }
    destruct (safe_redeemPoints_cases this userId n lockPromise redemptionId
                now Hsafe)
      as [[? Hc]|[(? & ? & Hc)|[(? & ? & ? & Hc)|(Hpos & _ & Hfit & Hc)]]];
      rewrite <- Hint in Hc; rewrite Hc in H; try discriminate.
    injection H as Hdto.
    fold old in Hdto, Hfit.
    split_and!.
    + by apply safe_balanceOf.
    + lia.
    + lia.
    + cbn [RedemptionResponseDto.newBalance]. congruence.
    + unfold getBalance. cbn [orderRepository].
      rewrite Hu. cbn [negb]. fold record.
      rewrite (safe_calculateBalance _ userId (proj1 (Hsafe' userId))
                 (proj2 (Hsafe' userId))).
      cbn [earnedPoints redeemedPoints balance].
      assert (He : earnedZ
                (mk (orderRepository this)
                   (RedemptionRepository.save (redemptionRepository this)
                      record)
                   (delete userId (activeLocks this))) userId
              = earnedZ this userId) by done.
      assert (Hr : redeemedZ
                (mk (orderRepository this)
                   (RedemptionRepository.save (redemptionRepository this)
                      record)
                   (delete userId (activeLocks this))) userId
              = redeemedZ this userId + n).
      { unfold redeemedZ. rewrite redeeming_save.
        cbn [Redemption.userId Redemption.points record].
        rewrite decide_True by done.
        rewrite fmap_app, total_app. cbn. fold n. lia. }
      rewrite He, Hr. do 3 f_equal. subst old. lia.
Qed.

Lemma redeemPoints_success_witness :
  let result := redeemPoints fresh "alice" 100 0 "red-a2" 1737800000000 in
  result.1
  = Return (RedemptionResponseDto.mk "red-a2" "alice" 100 1737800000000 100)
  ∧ getBalance result.2 "alice"
    = Return (BalanceResponseDto.mk "alice" 100 300 200).
Proof.
  intros result.
  assert (Hcall :
    redeemPoints fresh "alice" 100 0 "red-a2" 1737800000000
    = (Return (RedemptionResponseDto.mk "red-a2" "alice" 100 1737800000000
                 100), result.2))
    by (vm_compute; reflexivity).
  split; [vm_compute; reflexivity|].
  pose proof (redeemPoints_success fresh result.2 "alice" 100 0 "red-a2"
                1737800000000 _ Hcall) as H.
  cbv zeta in H. destruct H as (_ & _ & _ & H).
  assert (Hint : Number.ofZ 100 = Number.ofZ (Number.toZ (Number.ofZ 100)))
    by (vm_compute; reflexivity).
  destruct (H fresh_safe Hint) as (_ & _ & _ & Hg).
  etransitivity; [exact Hg|]. vm_compute. reflexivity.
Defined.

(** C3, the sentence refuted.  A user with one order of 2^53 + 4 points
    and a stored redemption of 2^53 points has the balance 4; a redemption
    of 1 point succeeds with the new balance 3, and the [getBalance] made
    next still reports 4, for 2^53 + 1 is rounded to 2^53. *)
Lemma getBalance_after_redeemPoints_rounded :
  let this :=
    mk {[ "u" := [Order.mk "o" "u" (2 ^ 53 + 4) active] ]}
       {[ "u" := [Redemption.mk "r0" "u" (2 ^ 53) 0] ]} ∅ in
  getBalance this "u"
  = Return (BalanceResponseDto.mk "u" 4 (2 ^ 53 + 4) (2 ^ 53))
  ∧ (redeemPoints this "u" 1 0 "r1" 1).1
    = Return (RedemptionResponseDto.mk "r1" "u" 1 1 3)
  ∧ getBalance (redeemPoints this "u" 1 0 "r1" 1).2 "u"
    = Return (BalanceResponseDto.mk "u" 4 (2 ^ 53 + 4) (2 ^ 53))
  ∧ Number.ofZ 4 ≠ Number.ofZ 3.
Proof. by vm_compute. Qed.

(** C4.  The checks of [redeemPoints] in their order: the call fails with
    [BadRequestException] exactly when the points are not positive
    ([points <= 0] holds); otherwise it fails with [NotFoundException]
    exactly when the user does not exist; for an existing user it fails with
    [ConflictException], carrying the balance and the requested points,
    exactly when the points exceed the balance ([balance < points] holds);
    and it succeeds otherwise, so also for the whole balance.  A failed call
    leaves both repositories as they were, and the whole service when no
    lock entry of the user was there. *)
Theorem redeemPoints_checks (this : t) (userId : string) (points : Number.t)
    (lockPromise : nat) (redemptionId : string) (now : Z) :
  let r := (redeemPoints this userId points lockPromise redemptionId now).1 in
  let this' :=
    (redeemPoints this userId points lockPromise redemptionId now).2 in
  let known := OrderRepository.userExists (orderRepository this) userId in
  (r = Throw BadRequestException ↔ Number.leb points 0 = true)
  ∧ (Number.leb points 0 = false →
     (r = Throw (NotFoundException userId) ↔ known = false))
  ∧ (Number.leb points 0 = false → known = true →
     ((∃ available requested, r = Throw (ConflictException available requested))
      ↔ Number.ltb (balanceOf this userId) points = true)
     ∧ (Number.ltb (balanceOf this userId) points = true →
        r = Throw (ConflictException (balanceOf this userId) points)))
  ∧ (Number.leb points 0 = false → known = true →
     Number.ltb (balanceOf this userId) points = false →
     ∃ dto, r = Return dto)
  ∧ (∀ e, r = Throw e →
     orderRepository this' = orderRepository this
     ∧ redemptionRepository this' = redemptionRepository this
     ∧ (activeLocks this !! userId = None → this' = this)).
Proof.
  intros r this' known. subst r this' known.
  assert (Hunlocked : activeLocks this !! userId = None →
    mk (orderRepository this) (redemptionRepository this)
       (delete userId (activeLocks this)) = this).
  { intros Hl. rewrite delete_id by done. by destruct this. }
  redeem_cases this userId points lockPromise redemptionId now;
    rewrite H; cbn [fst snd orderRepository redemptionRepository];
    (split; [|split; [|split; [|split]]]).
  - done.
  - intros; congruence.
  - intros; congruence.
  - intros; congruence.
  - intros e _. done.
  - split; [discriminate|congruence].
  - intros _. done.
  - intros _ Hu'. congruence.
  - intros _ Hu'. congruence.
  - intros e _. done.
  - split; [discriminate|congruence].
  - intros _. split; [discriminate|congruence].
  - intros _ _. split; [|done]. split; [done|eauto].
  - intros; congruence.
  - intros e _. done.
  - split; [discriminate|congruence].
  - intros _. split; [discriminate|congruence].
  - intros _ _. split; [|intros; congruence].
    split; [intros (? & ? & ?); discriminate|congruence].
  - eauto.
  - intros e ?. discriminate.
Qed.

(** C4 on whole numbers: the two comparisons are the comparisons of the
    integers. *)
Lemma checks_on_whole_points (this : t) (userId : string) (n : Z) :
  safe this →
  (Number.leb (Number.ofZ n) 0 = true ↔ n ≤ 0)
  ∧ (Number.ltb (balanceOf this userId) (Number.ofZ n) = true
     ↔ earnedZ this userId - redeemedZ this userId < n).
Proof.
  intros Hsafe. rewrite (safe_balanceOf _ _ Hsafe).
  change (Number.leb (Number.ofZ n) 0)
    with (Number.leb (Number.ofZ n) (Number.ofZ 0)).
  rewrite leb_ofZ, ltb_ofZ, !bool_decide_eq_true. done.
Qed.
(** An accepted redemption of whole points, in the safe range. *)
Lemma safe_accepted (this : t) (u rid : string) (n now : Z)
    (l : gmap string nat) :
  safe this → 0 < n ≤ earnedZ this u - redeemedZ this u →
  let this' :=
    mk (orderRepository this)
       (RedemptionRepository.save (redemptionRepository this)
          (Redemption.mk rid u (Number.ofZ n) now)) l in
  safe this'
  ∧ balanceOf this' u
    = Number.ofZ (earnedZ this u - redeemedZ this u - n)
  ∧ Number.sub (balanceOf this u) (Number.ofZ n)
    = Number.ofZ (earnedZ this u - redeemedZ this u - n).
Proof.
  intros Hsafe Hn this'.
  pose proof (safe_amounts_bounds _ (proj1 (Hsafe u))) as He.
  pose proof (safe_amounts_bounds _ (proj2 (Hsafe u))) as Hr.
  fold (earnedZ this u) in He. fold (redeemedZ this u) in Hr.
  assert (Hsafe' : safe this').
  { intros v. split; [exact (proj1 (Hsafe v))|].
    subst this'. rewrite redeeming_save.
    cbn [Redemption.userId Redemption.points].
    case_decide as Hv; [subst v|rewrite app_nil_r; apply Hsafe].
    apply safe_amounts_snoc; [apply Hsafe|lia|].
    fold (redeemedZ this u). lia. }
  split_and!; [done| |].
  - rewrite (safe_balanceOf _ _ Hsafe').
    assert (Hearned : earnedZ this' u = earnedZ this u) by done.
    subst this'. rewrite Hearned, redeemedZ_save_same. f_equal. lia.
  - rewrite (safe_balanceOf _ _ Hsafe), sub_ofZ; [done|lia].
Qed.



(** C7, as the code has it.  [getRedemptionHistory] takes the user id alone
    and returns the user id with all the redemptions of the user, as many
    as the repository holds and each of them once; there is no limit, no
    offset and no total, and the one way to fail is [NotFoundException],
    for a user that does not exist. *)
Theorem getRedemptionHistory_whole (this : t) (userId : string) :
  let stored :=
    RedemptionRepository.findByUserId (redemptionRepository this) userId in
  match (getRedemptionHistory this userId).1 with
  | Return h =>
      OrderRepository.userExists (orderRepository this) userId = true
      ∧ RedemptionHistory.userId h = userId
      ∧ length (RedemptionHistory.redemptions h) = length stored
      ∧ ∃ sorted, RedemptionHistory.redemptions h = toRecordDto <$> sorted
                  ∧ sorted ≡ₚ stored
                  ∧ Sorted newer sorted
  | Throw e =>
      OrderRepository.userExists (orderRepository this) userId = false
      ∧ e = NotFoundException userId
  end.
Proof.
  intros stored. unfold getRedemptionHistory.
  destruct (OrderRepository.userExists (orderRepository this) userId);
    cbn [negb fst]; [|done].
  cbn [RedemptionHistory.userId RedemptionHistory.redemptions].
  split_and!; [done..| |].
  - by rewrite length_fmap, array_sort_length.
  - exists (array_sort newestFirst stored). split_and!; [done| |].
    + apply array_sort_perm.
    + apply array_sort_sorted.
Qed.


(** C7, as stated, fails: a user with 51 redemptions gets all 51 from a
    call without pagination arguments, not the 50 of a default page. *)
Lemma getRedemptionHistory_no_default_limit :
  let this :=
    mk {["u" := [Order.mk "o" "u" 100 active]]}
       {["u" := replicate 51 (Redemption.mk "r" "u" 1 0)]} ∅ in
  ∃ h, (getRedemptionHistory this "u").1 = Return h
       ∧ length (RedemptionHistory.redemptions h) = 51%nat
       ∧ RedemptionHistory.redemptions h
         ≠ take 50 (drop 0 (RedemptionHistory.redemptions h)).
Proof.
  eexists. split; [vm_compute; reflexivity|].
  split; [reflexivity|].
  intros Heq. apply (f_equal length) in Heq. vm_compute in Heq. discriminate.
Qed.


(** C8, as the code has it.  [userExists] is true exactly for a user with an
    entry in the order index, and an entry may hold no order; a user with
    an order has an entry.  [getBalance] and [getRedemptionHistory] fail
    with [NotFoundException] exactly for the users without an entry, and so
    does [redeemPoints] when the points pass the first check. *)
Theorem userExists_entry (this : t) (userId : string) :
  (OrderRepository.userExists (orderRepository this) userId = true
   ↔ is_Some (orderRepository this !! userId))
  ∧ (OrderRepository.findByUserId (orderRepository this) userId ≠ [] →
     OrderRepository.userExists (orderRepository this) userId = true)
  ∧ (getBalance this userId = Throw (NotFoundException userId)
     ↔ orderRepository this !! userId = None)
  ∧ ((getRedemptionHistory this userId).1 = Throw (NotFoundException userId)
     ↔ orderRepository this !! userId = None)
  ∧ (∀ points lockPromise redemptionId now, Number.leb points 0 = false →
     (redeemPoints this userId points lockPromise redemptionId now).1
     = Throw (NotFoundException userId)
     ↔ orderRepository this !! userId = None).
Proof.
  split_and!.
  - apply userExists_true.
  - intros Hne. apply userExists_true.
    unfold OrderRepository.findByUserId in Hne.
    destruct (orderRepository this !! userId); [eauto|done].
  - rewrite <- userExists_false. unfold getBalance.
    destruct (OrderRepository.userExists (orderRepository this) userId);
      cbn [negb]; split; done.
  - rewrite <- userExists_false. unfold getRedemptionHistory.
    destruct (OrderRepository.userExists (orderRepository this) userId);
      cbn [negb fst]; split; done.
  - intros points lockPromise redemptionId now Hpos.
    rewrite <- userExists_false.
    redeem_cases this userId points lockPromise redemptionId now;
      rewrite H; cbn [fst]; try congruence; rewrite Hu; split; done.
Qed.


(** C8, as stated, fails: the seed data give [bob] an entry without orders,
    and [bob] exists: his balance is returned, not [NotFoundException]. *)
Lemma bob_exists_without_orders :
  OrderRepository.findByUserId OrderRepository.seedStubData "bob" = []
  ∧ OrderRepository.userExists OrderRepository.seedStubData "bob" = true
  ∧ getBalance fresh "bob" = Return (BalanceResponseDto.mk "bob" 0 0 0)
  ∧ ¬ (∀ ordersByUser userId,
         OrderRepository.userExists ordersByUser userId = true
         ↔ OrderRepository.findByUserId ordersByUser userId ≠ []).
Proof.
  split_and!; try (vm_compute; reflexivity).
  intros Hclaim.
  destruct (Hclaim OrderRepository.seedStubData "bob") as [H _].
  apply H; vm_compute; reflexivity.
Qed.


(** C1, as the code has it.  From a state in which the stored amounts are
    whole numbers in the safe range and every balance is at least zero,
    every sequence of calls ([redeemPoints] with whole points, succeeding
    or failing, and the two reads as well) leads to a state of the same
    kind: every balance is at least zero, and every [newBalance] returned
    on the way is at least zero.  The check rejects and never clamps: in
    the state reached, a further [redeemPoints] of whole points either
    records exactly the points asked for, which the balance covers, and
    returns the balance less these points, or throws and leaves the
    redemptions and every balance as they were. *)
Theorem balance_never_negative (this : t) (calls : list Call) :
  safe this →
  Forall integer_call calls →
  (∀ userId, Number.leb 0 (balanceOf this userId) = true) →
  let this' := (run this calls).2 in
  safe this'
  ∧ (∀ userId, Number.leb 0 (balanceOf this' userId) = true)
  ∧ Forall (fun r => ∀ dto, r = RedemptionResponse (Return dto) →
              Number.leb 0 (RedemptionResponseDto.newBalance dto) = true)
      (run this calls).1
  ∧ ∀ userId n lockPromise redemptionId now,
      match redeemPoints this' userId (Number.ofZ n) lockPromise
              redemptionId now with
      | (Return dto, this'') =>
          Number.leb (Number.ofZ n) (balanceOf this' userId) = true
          ∧ RedemptionRepository.findByUserId (redemptionRepository this'')
              userId
            = RedemptionRepository.findByUserId (redemptionRepository this')
                userId
              ++ [Redemption.mk redemptionId userId (Number.ofZ n) now]
          ∧ balanceOf this'' userId
            = Number.sub (balanceOf this' userId) (Number.ofZ n)
          ∧ RedemptionResponseDto.newBalance dto = balanceOf this'' userId
          ∧ Number.leb 0 (balanceOf this'' userId) = true
      | (Throw _, this'') =>
          redemptionRepository this'' = redemptionRepository this'
          ∧ ∀ v, balanceOf this'' v = balanceOf this' v
      end.
Proof.
  intros Hsafe Hcalls Hinv this'.
  assert (Hsafe' : safe this') by (by apply run_safe).
  split_and!.
  - done.
  - intros u. apply (safe_balance_nonneg _ _ Hsafe').
    apply run_covered; [done..|]. by apply (safe_balance_nonneg _ _ Hsafe).
  - by apply run_newBalance_nonneg.
  - intros u n lp rid now. clearbody this'. clear Hinv Hcalls Hsafe.
    destruct (safe_redeemPoints_cases this' u n lp rid now Hsafe')
      as [[? Hc]|[(? & ? & Hc)|[(? & ? & ? & Hc)|(Hpos & _ & Hfit & Hc)]]];
      rewrite Hc; try (split; [done|]; intros v; apply balanceOf_locks).
    destruct (safe_accepted this' u rid n now (delete u (activeLocks this'))
                Hsafe' (conj Hpos Hfit)) as (_ & Hb & Hs).
    cbv zeta in Hb.
    cbn [RedemptionResponseDto.newBalance redemptionRepository].
    rewrite Hb, Hs. split_and!.
    + rewrite (safe_balanceOf _ _ Hsafe'), leb_ofZ.
      apply bool_decide_eq_true. lia.
    + apply (findByUserId_save_same _ (Redemption.mk rid u (Number.ofZ n) now)).
    + done.
    + done.
    + change (Number.leb (Number.ofZ 0)
                (Number.ofZ (earnedZ this' u - redeemedZ this' u - n)) = true).
      rewrite leb_ofZ. apply bool_decide_eq_true. lia.
Qed.

Lemma balance_never_negative_witness :
  let calls := [RedeemPoints "eve" 100 0 "red-e3" 1737400000000;
                GetRedemptionHistory "eve";
                RedeemPoints "eve" 100 1 "red-e4" 1737400000001] in
  safe fresh
  ∧ Forall integer_call calls
  ∧ (∀ userId, Number.leb 0 (balanceOf fresh userId) = true)
  ∧ ∀ userId, Number.leb 0 (balanceOf (run fresh calls).2 userId) = true.
Proof.
  intros calls.
  assert (Hcalls : Forall integer_call calls).
  { apply (bool_decide_unpack _). vm_compute. reflexivity. }
  split; [exact fresh_safe|]. split; [exact Hcalls|].
  split; [exact fresh_balances|].
  exact (proj1 (proj2 (balance_never_negative fresh calls fresh_safe Hcalls
                         fresh_balances))).
Defined.

(** C1, the sentence refuted.  [NaN <= 0] and [balance < NaN] are both
    false, so a redemption of NaN points passes both checks and is saved;
    the balance of the user is NaN from then on, which is not at least
    zero, and every later amount is accepted. *)
Lemma redeemPoints_accepts_NaN :
  let this' :=
    (redeemPoints fresh "alice" Number.NaN 0 "red-a2" 1737800000000).2 in
  Number.leb 0 (balanceOf fresh "alice") = true
  ∧ (redeemPoints fresh "alice" Number.NaN 0 "red-a2" 1737800000000).1
    = Return (RedemptionResponseDto.mk "red-a2" "alice" Number.NaN
                1737800000000 Number.NaN)
  ∧ balanceOf this' "alice" = Number.NaN
  ∧ Number.leb 0 (balanceOf this' "alice") = false
  ∧ (redeemPoints this' "alice" 1000000 1 "red-a3" 1737800000001).1
    = Return (RedemptionResponseDto.mk "red-a3" "alice" 1000000
                1737800000001 Number.NaN).
Proof. vm_compute. repeat split. Qed.





(** The sort of the history read is visible in the repository. *)
Example eve_array_reordered :
  RedemptionRepository.findByUserId (redemptionRepository fresh) "eve"
  = [Redemption.mk "red-e1" "eve" 25 1737201600000;
     Redemption.mk "red-e2" "eve" 75 1737305100000]
  ∧ RedemptionRepository.findByUserId
      (redemptionRepository (getRedemptionHistory fresh "eve").2) "eve"
    = [Redemption.mk "red-e2" "eve" 75 1737305100000;
       Redemption.mk "red-e1" "eve" 25 1737201600000].
Proof. split; vm_compute; reflexivity. Qed.


(** C6, as the code has it.  For a user that exists, after any sequence of
    calls, [getRedemptionHistory] returns the redemptions of the user (those
    stored at the start and those the calls appended) newest first, and
    redemptions of one instant in the order of their insertion, the one
    appended first coming first: the result is the stable sort of the
    insertion log. *)
Theorem getRedemptionHistory_order (this : t) (calls : list Call)
    (userId : string) :
  OrderRepository.userExists (orderRepository this) userId = true →
  let log :=
    RedemptionRepository.findByUserId (redemptionRepository this) userId
    ++ appended this calls userId in
  ∃ sorted,
    (getRedemptionHistory (run this calls).2 userId).1
    = Return (RedemptionHistory.mk userId (toRecordDto <$> sorted))
    ∧ sorted ≡ₚ log
    ∧ Sorted newer sorted
    ∧ (∀ t, ties t sorted = ties t log)
    ∧ sorted = array_sort newestFirst log.
Proof.
  intros Hu log. exists (array_sort newestFirst log).
  split_and!.
  - unfold getRedemptionHistory. rewrite run_orders, Hu. cbn [negb fst].
    by rewrite run_sorted.
  - apply array_sort_perm.
  - apply array_sort_sorted.
  - intros t. apply ties_array_sort.
  - done.
Qed.


Lemma getRedemptionHistory_order_witness :
  ∃ sorted,
    (getRedemptionHistory
       (run fresh [RedeemPoints "eve" 50 0 "x" 1737400000000;
                   GetRedemptionHistory "eve";
                   RedeemPoints "eve" 50 1 "y" 1737400000000]).2 "eve").1
    = Return (RedemptionHistory.mk "eve" (toRecordDto <$> sorted))
    ∧ ties 1737400000000 sorted
      = [Redemption.mk "x" "eve" 50 1737400000000;
         Redemption.mk "y" "eve" 50 1737400000000].
Proof.
  destruct (getRedemptionHistory_order fresh
              [RedeemPoints "eve" 50 0 "x" 1737400000000;
               GetRedemptionHistory "eve";
               RedeemPoints "eve" 50 1 "y" 1737400000000] "eve" eq_refl)
    as (sorted & Hres & _ & _ & Hties & _).
  exists sorted. split; [exact Hres|].
  rewrite Hties. vm_compute. reflexivity.
Defined.


(** C6, as stated, fails: two redemptions of one instant come in the order
    of their insertion, not with the one appended last first. *)
Lemma getRedemptionHistory_ties_not_reversed :
  let x := Redemption.mk "x" "eve" 50 1737400000000 in
  let y := Redemption.mk "y" "eve" 50 1737400000000 in
  let calls :=
    [RedeemPoints "eve" 50 0 "x" 1737400000000;
     RedeemPoints "eve" 50 1 "y" 1737400000000] in
  let e1 := Redemption.mk "red-e1" "eve" 25 1737201600000 in
  let e2 := Redemption.mk "red-e2" "eve" 75 1737305100000 in
  appended fresh calls "eve" = [x; y]
  ∧ (getRedemptionHistory (run fresh calls).2 "eve").1
    = Return (RedemptionHistory.mk "eve" (toRecordDto <$> [x; y; e2; e1]))
  ∧ ties 1737400000000 [x; y; e2; e1]
    ≠ reverse (ties 1737400000000
                 (RedemptionRepository.findByUserId
                    (redemptionRepository fresh) "eve"
                  ++ appended fresh calls "eve")).
Proof.
  split_and!; [vm_compute; reflexivity..|].
  vm_compute. intros [=].
Qed.



End claims.

(** * Further properties of the code *)

Section repository_properties.
Import LoyaltyService.

(** X1.  [save] followed by [findByUserId]: the array of the record's user
    is the one stored before with the record pushed at its end (an array
    of that one record when the user had no entry), the user has an entry
    afterwards, and the entry of every other user is the one it was. *)
Theorem save_then_find (repo : gmap string (list Redemption.t))
    (r : Redemption.t) (u : string) :
  RedemptionRepository.findByUserId (RedemptionRepository.save repo r) u
  = RedemptionRepository.findByUserId repo u
    ++ (if decide (Redemption.userId r = u) then [r] else [])
  ∧ (repo !! Redemption.userId r = None →
     RedemptionRepository.save repo r !! Redemption.userId r = Some [r])
  ∧ is_Some (RedemptionRepository.save repo r !! Redemption.userId r)
  ∧ (Redemption.userId r ≠ u →
     RedemptionRepository.save repo r !! u = repo !! u)
  ∧ dom (RedemptionRepository.save repo r)
    = {[Redemption.userId r]} ∪ dom repo.
Proof.
  split_and!.
  - destruct (decide (Redemption.userId r = u)) as [<-|Hne].
    + apply findByUserId_save_same.
    + rewrite app_nil_r. by apply findByUserId_save_other.
  - intros Hnone. unfold RedemptionRepository.save.
    by rewrite lookup_insert_eq, Hnone.
  - unfold RedemptionRepository.save. rewrite lookup_insert_eq. eauto.
  - intros Hne. unfold RedemptionRepository.save.
    by rewrite lookup_insert_ne.
  - unfold RedemptionRepository.save. apply dom_insert_L.
Qed.

(** X2.  [redeemPoints] releases its lock on every way out: when it returns
    or throws, the lock table has no entry for the user, and the entries
    of the other users are the ones it found.  What it returns and what it
    leaves in the repositories is what [executeRedemption] gives on the
    service without the lock, whatever the lock table holds and whichever
    promise the call creates. *)
Theorem redeemPoints_releases_lock (this : t) (userId : string) (points : Number.t)
    (lockPromise : nat) (redemptionId : string) (now : Z) :
  let this' :=
    (redeemPoints this userId points lockPromise redemptionId now).2 in
  activeLocks this' !! userId = None
  ∧ (∀ v, v ≠ userId → activeLocks this' !! v = activeLocks this !! v)
  ∧ (redeemPoints this userId points lockPromise redemptionId now).1
    = (executeRedemption this userId points redemptionId now).1
  ∧ redemptionRepository this'
    = redemptionRepository
        (executeRedemption this userId points redemptionId now).2
  ∧ ∀ locks lockPromise',
      (redeemPoints (mk (orderRepository this) (redemptionRepository this)
                        locks) userId points lockPromise' redemptionId now).1
      = (redeemPoints this userId points lockPromise redemptionId now).1.
Proof.
  intros this'. subst this'.
  rewrite redeemPoints_locks, redeemPoints_executeRedemption.
  cbn [fst snd redemptionRepository].
  split_and!; [apply lookup_delete_eq| |done|done|].
  - intros v Hne. by rewrite lookup_delete_ne.
  - intros locks lockPromise'.
    rewrite redeemPoints_executeRedemption. cbn [fst].
    unfold executeRedemption, calculateBalance.
    cbn [orderRepository redemptionRepository].
    destruct (Number.leb points 0); [done|].
    destruct (OrderRepository.userExists (orderRepository this) userId);
      cbn [negb]; [|done].
    by destruct (Number.ltb _ points).
Qed.

Lemma userExists_dom (ordersByUser : gmap string (list Order.t)) (u : string) :
  OrderRepository.userExists ordersByUser u = true ↔ u ∈ dom ordersByUser.
Proof. rewrite userExists_true. symmetry. apply elem_of_dom. Qed.

Lemma call_known_users (this : t) (c : Call) :
  dom (redemptionRepository this) ⊆ dom (orderRepository this) →
  dom (redemptionRepository (call this c).2)
  ⊆ dom (orderRepository (call this c).2).
Proof.
  intros Hsub. rewrite call_orders.
  destruct c as [v|v p lp rid now|v]; [done| |].
  - change (call this (RedeemPoints v p lp rid now)).2
      with (let '(r, this') := redeemPoints this v p lp rid now in
            (RedemptionResponse r, this')).2.
    redeem_cases this v p lp rid now; rewrite H;
      cbn [snd redemptionRepository]; try done.
    unfold RedemptionRepository.save. rewrite dom_insert_L.
    apply userExists_dom in Hu. cbn [Redemption.userId].
    apply union_least; [by apply singleton_subseteq_l|done].
  - change (call this (GetRedemptionHistory v)).2
      with (let '(r, this') := getRedemptionHistory this v in
            (HistoryResponse r, this')).2.
    unfold getRedemptionHistory.
    destruct (OrderRepository.userExists (orderRepository this) v);
      cbn [negb snd redemptionRepository]; [|done].
    by rewrite dom_alter_L.
Qed.

(** X3.  Redemptions are recorded for known users only: when every user
    with an entry in the redemption index has an entry in the order index,
    this is still so after any sequence of calls, and every user with a
    recorded redemption then gets a balance, not [NotFoundException]. *)
Theorem redemptions_of_known_users (this : t) (calls : list Call) :
  dom (redemptionRepository this) ⊆ dom (orderRepository this) →
  let this' := (run this calls).2 in
  dom (redemptionRepository this') ⊆ dom (orderRepository this')
  ∧ ∀ u, RedemptionRepository.findByUserId (redemptionRepository this') u
         ≠ [] →
         ∃ dto, getBalance this' u = Return dto.
Proof.
  intros Hsub this'.
  assert (Hsub' : dom (redemptionRepository this')
                  ⊆ dom (orderRepository this')).
  { subst this'. revert this Hsub.
    induction calls as [|c calls IH]; intros this Hsub; [done|].
    rewrite run_cons. cbn [snd]. by apply IH, call_known_users. }
  split; [done|].
  intros u Hne. unfold getBalance.
  assert (Hu : OrderRepository.userExists (orderRepository this') u = true).
  { apply userExists_dom, Hsub', elem_of_dom.
    unfold RedemptionRepository.findByUserId in Hne.
    destruct (redemptionRepository this' !! u); [eauto|done]. }
  rewrite Hu. cbn [negb]. eauto.
Qed.

Lemma redemptions_of_known_users_witness :
  dom (redemptionRepository fresh) ⊆ dom (orderRepository fresh)
  ∧ dom (redemptionRepository
           (run fresh [RedeemPoints "dave" 50 0 "red-d1" 1737400000000;
                       RedeemPoints "zoe" 50 1 "red-z1" 1737400000001]).2)
    ⊆ dom (orderRepository
             (run fresh [RedeemPoints "dave" 50 0 "red-d1" 1737400000000;
                         RedeemPoints "zoe" 50 1 "red-z1" 1737400000001]).2).
Proof.
  assert (Hsub : dom (redemptionRepository fresh)
                 ⊆ dom (orderRepository fresh)).
  { apply (bool_decide_unpack _). by vm_compute. }
  split; [exact Hsub|].
  exact (proj1 (redemptions_of_known_users fresh
                  [RedeemPoints "dave" 50 0 "red-d1" 1737400000000;
                   RedeemPoints "zoe" 50 1 "red-z1" 1737400000001] Hsub)).
Defined.

Lemma appended_well_formed (this : t) (calls : list Call) (u : string)
    (r : Redemption.t) :
  r ∈ appended this calls u →
  Redemption.userId r = u ∧ Number.leb (Redemption.points r) 0 = false.
Proof.
  revert this. induction calls as [|c calls IH]; intros this Hr.
  - by apply elem_of_nil in Hr.
  - rewrite appended_cons in Hr. apply elem_of_app in Hr as [Hr|Hr];
      [|by eapply IH].
    destruct c as [v|v p lp rid now|v].
    + rewrite appended_read in Hr by done. by apply elem_of_nil in Hr.
    + rewrite appended_redeem in Hr.
      redeem_cases this v p lp rid now; rewrite H in Hr; cbn [fst] in Hr;
        try by apply elem_of_nil in Hr.
      destruct (decide (v = u)) as [->|Hne];
        [|by apply elem_of_nil in Hr].
      apply list_elem_of_singleton in Hr as ->. done.
    + rewrite appended_read in Hr by done. by apply elem_of_nil in Hr.
Qed.

(** X4.  The stored records stay well formed: when every redemption stored
    under a user carries that user's id and an amount that is not [<= 0],
    this is still so after any sequence of calls, whatever amounts the
    calls ask for. *)
Theorem stored_records_well_formed (this : t) (calls : list Call) :
  (∀ u r, r ∈ RedemptionRepository.findByUserId (redemptionRepository this) u →
          Redemption.userId r = u
          ∧ Number.leb (Redemption.points r) 0 = false) →
  ∀ u r,
    r ∈ RedemptionRepository.findByUserId
          (redemptionRepository (run this calls).2) u →
    Redemption.userId r = u ∧ Number.leb (Redemption.points r) 0 = false.
Proof.
  intros Hwf u r Hr. rewrite run_stored in Hr.
  apply elem_of_app in Hr as [Hr|Hr]; [by apply Hwf|].
  by eapply appended_well_formed.
Qed.

Lemma fresh_records_well_formed (u : string) (r : Redemption.t) :
  r ∈ RedemptionRepository.findByUserId (redemptionRepository fresh) u →
  Redemption.userId r = u ∧ Number.leb (Redemption.points r) 0 = false.
Proof.
  unfold fresh, RedemptionRepository.findByUserId,
    RedemptionRepository.seedStubData.
  cbn [redemptionRepository].
  destruct (decide (u = "eve")) as [->|?].
  { rewrite lookup_insert_eq. cbn [default]. intros Hr.
    repeat (apply elem_of_cons in Hr as [->|Hr];
            [split; vm_compute; reflexivity|]).
    by apply elem_of_nil in Hr. }
  rewrite lookup_insert_ne by done.
  destruct (decide (u = "charlie")) as [->|?].
  { rewrite lookup_insert_eq. cbn [default]. intros Hr.
    repeat (apply elem_of_cons in Hr as [->|Hr];
            [split; vm_compute; reflexivity|]).
    by apply elem_of_nil in Hr. }
  rewrite lookup_insert_ne by done.
  destruct (decide (u = "alice")) as [->|?].
  { rewrite lookup_insert_eq. cbn [default]. intros Hr.
    repeat (apply elem_of_cons in Hr as [->|Hr];
            [split; vm_compute; reflexivity|]).
    by apply elem_of_nil in Hr. }
  rewrite lookup_insert_ne, lookup_empty by done. cbn [default].
  intros Hr. by apply elem_of_nil in Hr.
Qed.

Lemma stored_records_well_formed_witness :
  Forall (fun r => Redemption.userId r = "dave"
                   ∧ Number.leb (Redemption.points r) 0 = false)
    (RedemptionRepository.findByUserId
       (redemptionRepository
          (run fresh [RedeemPoints "dave" 50 0 "red-d1" 1737400000000;
                      RedeemPoints "dave" Number.NaN 1 "red-d2" 1737400000001;
                      GetRedemptionHistory "eve"]).2) "dave").
Proof.
  apply Forall_forall. intros r Hr.
  exact (stored_records_well_formed fresh
           [RedeemPoints "dave" 50 0 "red-d1" 1737400000000;
            RedeemPoints "dave" Number.NaN 1 "red-d2" 1737400000001;
            GetRedemptionHistory "eve"] fresh_records_well_formed
           "dave" r Hr).
Defined.

(** X5.  The redemption index is append-only: after any sequence of calls
    the array of a user holds, up to its order, the records it held before
    and the records of the accepted redemptions of that user, each once;
    no record is dropped or changed, and the earned points are what they
    were.  When the stored amounts are whole numbers in the safe range and
    the calls ask for whole points, the redeemed points have grown by
    exactly the accepted amounts, and the balance has gone down by them. *)
Theorem redemptions_append_only (this : t) (calls : list Call) (u : string) :
  let before :=
    RedemptionRepository.findByUserId (redemptionRepository this) u in
  let after :=
    RedemptionRepository.findByUserId
      (redemptionRepository (run this calls).2) u in
  let recorded :=
    total (Number.toZ <$> (Redemption.points <$> appended this calls u)) in
  after ≡ₚ before ++ appended this calls u
  ∧ (∀ r, r ∈ before → r ∈ after)
  ∧ length after = (length before + length (appended this calls u))%nat
  ∧ earnedPoints (calculateBalance (run this calls).2 u)
    = earnedPoints (calculateBalance this u)
  ∧ (safe this → Forall integer_call calls →
     calculateBalance this u
     = mkBalance (Number.ofZ (earnedZ this u))
         (Number.ofZ (redeemedZ this u))
         (Number.ofZ (earnedZ this u - redeemedZ this u))
     ∧ calculateBalance (run this calls).2 u
       = mkBalance (Number.ofZ (earnedZ this u))
           (Number.ofZ (redeemedZ this u + recorded))
           (Number.ofZ (earnedZ this u - redeemedZ this u - recorded))).
Proof.
  intros before after recorded.
  assert (Hperm : after ≡ₚ before ++ appended this calls u)
    by apply run_stored.
  split_and!; [done| | | |].
  - intros r Hr. rewrite Hperm. apply elem_of_app. by left.
  - by rewrite Hperm, length_app.
  - unfold calculateBalance. cbn [earnedPoints]. by rewrite run_orders.
  - intros Hsafe Hcalls.
    pose proof (run_safe this calls Hsafe Hcalls) as Hsafe'.
    split; [apply safe_calculateBalance; apply Hsafe|].
    rewrite (safe_calculateBalance _ u (proj1 (Hsafe' u)) (proj2 (Hsafe' u))).
    rewrite earnedZ_run, redeemedZ_run. fold recorded.
    do 2 f_equal. lia.
Qed.

Lemma redemptions_append_only_witness :
  let calls := [RedeemPoints "eve" 100 0 "red-e3" 1737400000000;
                GetRedemptionHistory "eve";
                RedeemPoints "eve" 100 1 "red-e4" 1737400000001] in
  calculateBalance (run fresh calls).2 "eve" = mkBalance 250 200 50.
Proof.
  intros calls.
  assert (Hcalls : Forall integer_call calls).
  { apply (bool_decide_unpack _). vm_compute. reflexivity. }
  destruct (redemptions_append_only fresh calls "eve") as (_ & _ & _ & _ & H).
  destruct (H fresh_safe Hcalls) as [_ Hb].
  etransitivity; [exact Hb|]. vm_compute. reflexivity.
Defined.
End repository_properties.

Section service_properties.
Import LoyaltyService.

(** X6.  A redemption touches its own user only: whatever [redeemPoints]
    does for one user, the entry of any other user in the redemption index,
    the order index, the balance of the other user and the other user's
    history are what they were. *)
Theorem redeemPoints_other_user (this : t) (userId v : string)
    (points : Number.t)
    (lockPromise : nat) (redemptionId : string) (now : Z) :
  v ≠ userId →
  let this' :=
    (redeemPoints this userId points lockPromise redemptionId now).2 in
  redemptionRepository this' !! v = redemptionRepository this !! v
  ∧ orderRepository this' = orderRepository this
  ∧ getBalance this' v = getBalance this v
  ∧ (getRedemptionHistory this' v).1 = (getRedemptionHistory this v).1.
Proof.
  intros Hne this'.
  assert (Hrepo : redemptionRepository this' !! v
                  = redemptionRepository this !! v).
  { subst this'.
    redeem_cases this userId points lockPromise redemptionId now; rewrite H;
      cbn [snd redemptionRepository]; try done.
    unfold RedemptionRepository.save. cbn [Redemption.userId].
    by rewrite lookup_insert_ne. }
  assert (Hord : orderRepository this' = orderRepository this).
  { subst this'.
    by redeem_cases this userId points lockPromise redemptionId now;
      rewrite H. }
  split_and!; [done|done| |].
  - unfold getBalance, calculateBalance,
      RedemptionRepository.findByUserId. by rewrite Hord, Hrepo.
  - unfold getRedemptionHistory, RedemptionRepository.findByUserId.
    rewrite Hord, Hrepo. cbn [fst].
    by destruct (OrderRepository.userExists (orderRepository this) v).
Qed.

Lemma redeemPoints_other_user_witness :
  getBalance (redeemPoints fresh "eve" 100 0 "red-e3" 1737400000000).2 "alice"
  = getBalance fresh "alice".
Proof.
  assert (Hne : "alice" ≠ "eve") by discriminate.
  exact (proj1 (proj2 (proj2 (redeemPoints_other_user fresh "eve" "alice"
                                100 0 "red-e3" 1737400000000 Hne)))).
Defined.

(** X7.  A second history read changes nothing: after one
    [getRedemptionHistory] for a user, another one returns the same result
    and leaves the service exactly as it found it.  For a user without an
    entry in the redemption index the first read already leaves the service
    as it was, creates no entry, and returns the empty history when the
    user exists. *)
Theorem getRedemptionHistory_again (this : t) (userId : string) :
  getRedemptionHistory (getRedemptionHistory this userId).2 userId
  = getRedemptionHistory this userId
  ∧ (redemptionRepository this !! userId = None →
     (getRedemptionHistory this userId).2 = this
     ∧ (OrderRepository.userExists (orderRepository this) userId = true →
        (getRedemptionHistory this userId).1
        = Return (RedemptionHistory.mk userId []))).
Proof.
  split.
  - unfold getRedemptionHistory at 2 3.
    destruct (OrderRepository.userExists (orderRepository this) userId)
      eqn:Hu; cbn [negb snd].
    + unfold getRedemptionHistory. cbn [orderRepository redemptionRepository
                                          activeLocks].
      rewrite Hu. cbn [negb].
      rewrite findByUserId_alter by done.
      rewrite decide_True by done. rewrite array_sort_idem.
      assert (Hagain :
        alter (array_sort newestFirst) userId
          (alter (array_sort newestFirst) userId (redemptionRepository this))
        = alter (array_sort newestFirst) userId (redemptionRepository this)).
      { apply map_eq. intros v.
        destruct (decide (userId = v)) as [<-|Hne];
          [|by rewrite !lookup_alter_ne].
        rewrite !lookup_alter_eq.
        destruct (redemptionRepository this !! userId); [|done].
        cbn. by rewrite array_sort_idem. }
      by rewrite Hagain.
    + unfold getRedemptionHistory. by rewrite Hu.
  - intros Hnone. unfold getRedemptionHistory,
      RedemptionRepository.findByUserId. rewrite Hnone.
    destruct (OrderRepository.userExists (orderRepository this) userId);
      cbn [negb fst snd default].
    + split; [|done]. destruct this as [o r l]. cbn in *. f_equal.
      apply map_eq. intros v.
      destruct (decide (userId = v)) as [<-|Hne];
        [|by rewrite lookup_alter_ne].
      by rewrite lookup_alter_eq, Hnone.
    + split; [done|]. discriminate.
Qed.

(** The amounts added for a user, when the arrays are rearranged. *)
Lemma earning_perm (this1 this2 : t) (userId : string) :
  OrderRepository.findByUserId (orderRepository this1) userId
  ≡ₚ OrderRepository.findByUserId (orderRepository this2) userId →
  earning this1 userId ≡ₚ earning this2 userId.
Proof. intros Ho. unfold earning. by rewrite Ho. Qed.

Lemma redeeming_perm (this1 this2 : t) (userId : string) :
  RedemptionRepository.findByUserId (redemptionRepository this1) userId
  ≡ₚ RedemptionRepository.findByUserId (redemptionRepository this2) userId →
  redeeming this1 userId ≡ₚ redeeming this2 userId.
Proof. intros Hr. unfold redeeming. by rewrite Hr. Qed.

(** X8.  In the safe range, [calculateBalance] does not depend on the order
    of the arrays: when the amounts of a user are whole numbers with exact
    sums of at most 2^53, two services whose order arrays and whose
    redemption arrays for the user are the same up to their order give the
    user the same three numbers. *)
Theorem calculateBalance_any_order (this1 this2 : t) (userId : string) :
  safe_amounts (earning this1 userId) →
  safe_amounts (redeeming this1 userId) →
  OrderRepository.findByUserId (orderRepository this1) userId
  ≡ₚ OrderRepository.findByUserId (orderRepository this2) userId →
  RedemptionRepository.findByUserId (redemptionRepository this1) userId
  ≡ₚ RedemptionRepository.findByUserId (redemptionRepository this2) userId →
  calculateBalance this1 userId = calculateBalance this2 userId.
Proof.
  intros He Hr Ho Hred.
  pose proof (earning_perm this1 this2 userId Ho) as Hpe.
  pose proof (redeeming_perm this1 this2 userId Hred) as Hpr.
  rewrite (safe_calculateBalance this1 userId He Hr).
  rewrite (safe_calculateBalance this2 userId
             (safe_amounts_perm _ _ Hpe He) (safe_amounts_perm _ _ Hpr Hr)).
  unfold earnedZ, redeemedZ.
  by rewrite (total_perm _ _ (fmap_Permutation Number.toZ _ _ Hpe)),
    (total_perm _ _ (fmap_Permutation Number.toZ _ _ Hpr)).
Qed.

Lemma calculateBalance_any_order_witness :
  calculateBalance
    (mk {["dave" := [Order.mk "ord-d2" "dave" 100 cancelled;
                     Order.mk "ord-d1" "dave" 200 active]]}
        {["dave" := [Redemption.mk "r2" "dave" 20 2;
                     Redemption.mk "r1" "dave" 10 1]]} ∅) "dave"
  = calculateBalance
      (mk {["dave" := [Order.mk "ord-d1" "dave" 200 active;
                       Order.mk "ord-d2" "dave" 100 cancelled]]}
          {["dave" := [Redemption.mk "r1" "dave" 10 1;
                       Redemption.mk "r2" "dave" 20 2]]} ∅) "dave".
Proof.
  apply calculateBalance_any_order.
  - apply (bool_decide_unpack _). vm_compute. reflexivity.
  - apply (bool_decide_unpack _). vm_compute. reflexivity.
  - unfold OrderRepository.findByUserId. cbn [orderRepository].
    rewrite !lookup_singleton_eq. cbn [default]. apply Permutation_swap.
  - unfold RedemptionRepository.findByUserId. cbn [redemptionRepository].
    rewrite !lookup_singleton_eq. cbn [default]. apply Permutation_swap.
Defined.

(** X9.  Only active orders earn.  In the safe range, when one active order
    of a user becomes cancelled or refunded and nothing else changes, the
    earned points and the balance of the user go down by the points of
    that order, and the redeemed points stay; nothing keeps the balance
    from going below zero this way. *)
Theorem inactive_order_not_counted (this1 this2 : t) (userId : string)
    (before after : list Order.t) (order : Order.t) (status' : OrderStatus) :
  safe_amounts (earning this1 userId) →
  safe_amounts (redeeming this1 userId) →
  OrderRepository.findByUserId (orderRepository this1) userId
  = before ++ order :: after →
  Order.status order = active →
  status' ≠ active →
  OrderRepository.findByUserId (orderRepository this2) userId
  = before
    ++ Order.mk (Order.orderId order) (Order.userId order)
         (Order.points order) status' :: after →
  RedemptionRepository.findByUserId (redemptionRepository this2) userId
  = RedemptionRepository.findByUserId (redemptionRepository this1) userId →
  let lost := Number.toZ (Order.points order) in
  calculateBalance this1 userId
  = mkBalance (Number.ofZ (earnedZ this1 userId))
      (Number.ofZ (redeemedZ this1 userId))
      (Number.ofZ (earnedZ this1 userId - redeemedZ this1 userId))
  ∧ calculateBalance this2 userId
    = mkBalance (Number.ofZ (earnedZ this1 userId - lost))
        (Number.ofZ (redeemedZ this1 userId))
        (Number.ofZ (earnedZ this1 userId - redeemedZ this1 userId - lost)).
Proof.
  intros He Hr H1 Hact Hst H2 Hred lost.
  split; [by apply safe_calculateBalance|].
  assert (Hr2 : redeeming this2 userId = redeeming this1 userId)
    by (unfold redeeming; by rewrite Hred).
  assert (He1 : earning this1 userId
                ≡ₚ Order.points order :: earning this2 userId).
  { unfold earning. rewrite H1, H2, !filter_app, !filter_cons.
    destruct (decide (Order.status order = active)); [|done].
    destruct (decide (Order.status (Order.mk _ _ _ status') = active))
      as [Hc|_]; [by apply Hst in Hc|].
    rewrite !fmap_app, fmap_cons. by rewrite Permutation_middle. }
  pose proof (safe_amounts_perm _ _ He1 He) as [Hw Hs].
  apply Forall_cons in Hw as [Hwo Hw2].
  rewrite fmap_cons in Hs. cbn [total] in Hs.
  assert (He2 : safe_amounts (earning this2 userId)).
  { split; [done|]. destruct Hwo as [_ Hwo]. lia. }
  assert (Hsum : earnedZ this1 userId = lost + earnedZ this2 userId).
  { unfold earnedZ.
    by rewrite (total_perm _ _ (fmap_Permutation Number.toZ _ _ He1)). }
  rewrite (safe_calculateBalance this2 userId He2); [|by rewrite Hr2].
  assert (Hsame : redeemedZ this2 userId = redeemedZ this1 userId)
    by (unfold redeemedZ; by rewrite Hr2).
  rewrite Hsame, Hsum. f_equal; apply (f_equal Number.ofZ); lia.
Qed.

Lemma inactive_order_not_counted_witness :
  calculateBalance
    (mk {["dave" := [Order.mk "ord-d1" "dave" 200 active;
                     Order.mk "ord-d2" "dave" 100 refunded]]}
        {["dave" := [Redemption.mk "r1" "dave" 250 1]]} ∅) "dave"
  = mkBalance 200 250 (-50).
Proof.
  set (this1 := mk {["dave" := [Order.mk "ord-d1" "dave" 200 active;
                                Order.mk "ord-d2" "dave" 100 active]]}
                  {["dave" := [Redemption.mk "r1" "dave" 250 1]]} ∅).
  assert (He : safe_amounts (earning this1 "dave")).
  { apply (bool_decide_unpack _). vm_compute. reflexivity. }
  assert (Hr : safe_amounts (redeeming this1 "dave")).
  { apply (bool_decide_unpack _). vm_compute. reflexivity. }
  destruct (inactive_order_not_counted this1
              (mk {["dave" := [Order.mk "ord-d1" "dave" 200 active;
                               Order.mk "ord-d2" "dave" 100 refunded]]}
                  {["dave" := [Redemption.mk "r1" "dave" 250 1]]} ∅)
              "dave" [Order.mk "ord-d1" "dave" 200 active] []
              (Order.mk "ord-d2" "dave" 100 active) refunded
              He Hr eq_refl eq_refl ltac:(discriminate) eq_refl eq_refl)
    as [_ H].
  etransitivity; [exact H|]. vm_compute. reflexivity.
Defined.

(** X10.  Bounds on the three numbers in the safe range: when the amounts
    added for a user are whole numbers, none negative, with exact sums of
    at most 2^53, the earned and the redeemed points are at least zero and
    at most 2^53, and the balance is at most the earned points and at
    least minus the redeemed points. *)
Theorem calculateBalance_bounds (this : t) (userId : string) :
  safe_amounts (earning this userId) →
  safe_amounts (redeeming this userId) →
  let b := calculateBalance this userId in
  Number.leb 0 (earnedPoints b) = true
  ∧ Number.leb (earnedPoints b) (Number.ofZ (2 ^ 53)) = true
  ∧ Number.leb 0 (redeemedPoints b) = true
  ∧ Number.leb (redeemedPoints b) (Number.ofZ (2 ^ 53)) = true
  ∧ Number.leb (balance b) (earnedPoints b) = true
  ∧ Number.leb (Number.ofZ (- redeemedZ this userId)) (balance b) = true.
Proof.
  intros He Hr b. subst b.
  rewrite (safe_calculateBalance this userId He Hr).
  cbn [earnedPoints redeemedPoints balance].
  apply safe_amounts_bounds in He, Hr.
  fold (earnedZ this userId) in He. fold (redeemedZ this userId) in Hr.
  change (Number.ofZ 0) with (Number.ofZ 0).
  rewrite !leb_ofZ, !bool_decide_eq_true. lia.
Qed.

Lemma calculateBalance_bounds_witness :
  Number.leb (balance (calculateBalance fresh "dave"))
    (earnedPoints (calculateBalance fresh "dave")) = true.
Proof.
  assert (He : safe_amounts (earning fresh "dave")).
  { apply (bool_decide_unpack _). vm_compute. reflexivity. }
  assert (Hr : safe_amounts (redeeming fresh "dave")).
  { apply (bool_decide_unpack _). vm_compute. reflexivity. }
  exact (proj1 (proj2 (proj2 (proj2 (proj2
           (calculateBalance_bounds fresh "dave" He Hr)))))).
Defined.

(** X11.  Redeeming the whole balance, in the safe range: for a user that
    exists and has a positive balance, [redeemPoints] for exactly the
    balance succeeds and returns [newBalance] zero; the balance is then
    zero, and any further redemption of a positive whole amount fails with
    [ConflictException] carrying zero and the amount. *)
Theorem redeem_whole_balance (this : t) (userId : string)
    (lockPromise : nat) (redemptionId : string) (now : Z) :
  safe this →
  OrderRepository.userExists (orderRepository this) userId = true →
  Number.leb (balanceOf this userId) 0 = false →
  let all := balanceOf this userId in
  let this' := (redeemPoints this userId all lockPromise redemptionId now).2 in
  (redeemPoints this userId all lockPromise redemptionId now).1
  = Return (RedemptionResponseDto.mk redemptionId userId all now 0)
  ∧ balanceOf this' userId = 0
  ∧ ∀ n lockPromise' redemptionId' now', 0 < n →
      redeemPoints this' userId (Number.ofZ n) lockPromise' redemptionId' now'
      = (Throw (ConflictException 0 (Number.ofZ n)), this').
Proof.
  intros Hsafe Hknown Hpos all this'.
  set (available := earnedZ this userId - redeemedZ this userId).
  assert (Hall : all = Number.ofZ available) by (by apply safe_balanceOf).
  assert (Hav : 0 < available).
  { subst all. rewrite Hall in Hpos.
    change (Number.leb (Number.ofZ available) (Number.ofZ 0) = false)
      in Hpos.
    rewrite leb_ofZ in Hpos. apply bool_decide_eq_false in Hpos. lia. }
  assert (Hcall : redeemPoints this userId all lockPromise redemptionId now
                  = (Return (RedemptionResponseDto.mk redemptionId userId all
                               now 0),
                     mk (orderRepository this)
                        (RedemptionRepository.save (redemptionRepository this)
                           (Redemption.mk redemptionId userId all now))
                        (delete userId (activeLocks this)))).
  { rewrite Hall. clear Hall. subst available.
    destruct (safe_redeemPoints_cases this userId
                (earnedZ this userId - redeemedZ this userId) lockPromise
                redemptionId now Hsafe)
      as [[? Hc]|[(? & ? & Hc)|[(? & ? & ? & Hc)|(_ & _ & _ & Hc)]]];
      try lia; try congruence.
    rewrite Hc. by rewrite Z.sub_diag. }
  destruct (safe_accepted this userId redemptionId available now
              (delete userId (activeLocks this)) Hsafe)
    as (Hsafe' & Hzero & _); [fold available; lia|].
  cbv zeta in Hsafe', Hzero. fold available in Hzero.
  rewrite Z.sub_diag in Hzero. rewrite <- Hall in Hsafe', Hzero.
  assert (Hthis' : this'
                   = mk (orderRepository this)
                       (RedemptionRepository.save (redemptionRepository this)
                          (Redemption.mk redemptionId userId all now))
                       (delete userId (activeLocks this)))
    by (subst this'; by rewrite Hcall).
  rewrite <- Hthis' in Hsafe', Hzero.
  split_and!; [by rewrite Hcall|done|].
  intros n lockPromise' redemptionId' now' Hn.
  assert (Hleft : earnedZ this' userId - redeemedZ this' userId = 0).
  { rewrite (safe_balanceOf _ _ Hsafe') in Hzero.
    by apply ofZ_inj in Hzero. }
  destruct (safe_redeemPoints_cases this' userId n lockPromise' redemptionId'
              now' Hsafe')
    as [[? Hc]|[(_ & Hu & Hc)|[(_ & _ & _ & Hc)|(_ & _ & ? & Hc)]]];
    try lia.
  - rewrite Hthis' in Hu. cbn [orderRepository] in Hu. congruence.
  - rewrite Hc, Hleft. f_equal. rewrite Hthis'.
    cbn [orderRepository redemptionRepository activeLocks].
    by rewrite delete_delete_eq.
Qed.

Lemma redeem_whole_balance_witness :
  (redeemPoints fresh "dave" (balanceOf fresh "dave") 0 "red-d1"
     1737400000000).1
  = Return (RedemptionResponseDto.mk "red-d1" "dave" (balanceOf fresh "dave")
              1737400000000 0).
Proof.
  assert (Hpos : Number.leb (balanceOf fresh "dave") 0 = false)
    by (vm_compute; reflexivity).
  exact (proj1 (redeem_whole_balance fresh "dave" 0 "red-d1" 1737400000000
                  fresh_safe eq_refl Hpos)).
Defined.

(** X12.  The history is the one newest-first arrangement of the stored
    records that keeps the records of each instant in their stored order:
    any array with these two properties is, record for record, what
    [getRedemptionHistory] returns for an existing user. *)
Theorem getRedemptionHistory_characterised (this : t) (userId : string)
    (arr : list Redemption.t) :
  OrderRepository.userExists (orderRepository this) userId = true →
  Sorted newer arr →
  (∀ instant,
     ties instant arr
     = ties instant
         (RedemptionRepository.findByUserId (redemptionRepository this)
            userId)) →
  (getRedemptionHistory this userId).1
  = Return (RedemptionHistory.mk userId (toRecordDto <$> arr)).
Proof.
  intros Hu Hsorted Hties. unfold getRedemptionHistory. rewrite Hu.
  cbn [negb fst]. do 3 f_equal. symmetry.
  apply sort_unique; [done|apply array_sort_sorted|].
  intros instant. by rewrite ties_array_sort.
Qed.

Lemma getRedemptionHistory_characterised_witness :
  (getRedemptionHistory fresh "eve").1
  = Return (RedemptionHistory.mk "eve"
              (toRecordDto
                 <$> [Redemption.mk "red-e2" "eve" 75 1737305100000;
                      Redemption.mk "red-e1" "eve" 25 1737201600000])).
Proof.
  apply getRedemptionHistory_characterised.
  - reflexivity.
  - repeat constructor; by vm_compute.
  - intros instant.
    change (RedemptionRepository.findByUserId (redemptionRepository fresh)
              "eve")
      with [Redemption.mk "red-e1" "eve" 25 1737201600000;
            Redemption.mk "red-e2" "eve" 75 1737305100000].
    rewrite !ties_cons. cbn [Redemption.timestamp].
    repeat case_decide; try done; lia.
Defined.
End service_properties.

Section in_flight_properties.
Import LoyaltyService.
Import EventLoop.

(** X13.  No call is ever stuck behind a lock: requests that arrive at a
    service with an empty lock table can be served in any order and at any
    instants; every call that is given the processor returns, none is left
    suspended, and the lock table is empty again at the end. *)
Theorem every_call_is_served (this : LoyaltyService.t)
    (requests : list (string * Number.t * string)) (order : list nat)
    (instants : list Z) :
  activeLocks this = ∅ →
  NoDup order →
  (∀ i, i ∈ order → (i < length requests)%nat) →
  length instants = length order →
  ∃ σ, exec (launch this requests) (zip order instants) = Some σ
       ∧ activeLocks (service σ) = ∅
       ∧ (∀ i, i ∈ order →
               ∃ task, tasks σ !! i = Some task
                       ∧ is_Some (response_of task))
       ∧ Forall (fun task => ∀ l, stage task ≠ Awaiting l) (tasks σ).
Proof.
  intros Hlocks Hnd Hrange Hlen.
  destruct (exec_all_called requests (launch this requests) order instants)
    as (σ & Hex & [Hl Htasks] & Hret); [by apply launch_settled_or_new|done| |done|].
  { intros i Hi. apply Hrange in Hi.
    destruct (lookup_lt_is_Some_2 requests i Hi) as [[[u p] rid] Hreq].
    exists (mkTask u p rid Called). split; [|done].
    cbn [launch tasks]. by rewrite list_lookup_fmap, Hreq. }
  exists σ. split_and!; [done..|].
  clear -Htasks.
  induction Htasks as [|task req ts rs [_ Hnw] _ IH]; constructor; done.
Qed.

Lemma every_call_is_served_witness :
  let requests :=
    [("eve", Number.ofZ 100, "a"); ("bob", Number.ofZ 5, "b");
     ("eve", Number.ofZ 100, "c")] in
  ∃ σ, exec (launch fresh requests) (zip [2%nat; 0%nat; 1%nat] [7; 8; 9])
       = Some σ
       ∧ activeLocks (service σ) = ∅.
Proof.
  intros requests.
  assert (Hnd : NoDup [2%nat; 0%nat; 1%nat]).
  { apply (bool_decide_unpack _). by vm_compute. }
  assert (Hrange : ∀ i, i ∈ [2%nat; 0%nat; 1%nat] →
                        (i < length requests)%nat).
  { intros i Hi. cbn [length requests].
    repeat (apply elem_of_cons in Hi as [->|Hi]; [lia|]).
    by apply elem_of_nil in Hi. }
  destruct (every_call_is_served fresh requests
              [2%nat; 0%nat; 1%nat] [7; 8; 9] eq_refl Hnd Hrange eq_refl)
    as (σ & Hex & Hl & _).
  exists σ. split; [exact Hex|exact Hl].
Defined.

Lemma total_insert (l : list Z) (i : nat) (x y : Z) :
  l !! i = Some x → total (<[i := y]> l) = total l - x + y.
Proof.
  revert i. induction l as [|a l IH]; intros [|i] Hi; try done.
  - injection Hi as ->. simpl. lia.
  - simpl in *. rewrite (IH i Hi). lia.
Qed.

(** The amounts found at distinct places of a list of amounts that are at
    least zero sum to at most the sum of the list. *)
Lemma total_at_distinct (l : list Z) (places : list nat) (xs : list Z) :
  Forall (fun x => 0 ≤ x) l → NoDup places →
  Forall2 (fun i x => l !! i = Some x) places xs →
  total xs ≤ total l.
Proof.
  revert xs l.
  induction places as [|i places IH]; intros xs l Hl Hnd Hxs.
  - apply Forall2_nil_inv_l in Hxs as ->. simpl. by apply total_nonneg.
  - apply Forall2_cons_inv_l in Hxs as (x & xs' & Hi & Hxs & ->).
    apply NoDup_cons in Hnd as [Hnotin Hnd].
    assert (Hle : total xs' ≤ total (<[i := 0]> l)).
    { apply IH; [apply Forall_insert; [done|lia]|done|].
      clear -Hxs Hnotin.
      induction Hxs as [|j y places xs Hj _ IH]; constructor.
      - rewrite list_lookup_insert_ne; [done|]. intros ->.
        apply Hnotin. left.
      - apply IH. intros Hin. apply Hnotin. by right. }
    rewrite (total_insert l i x 0 Hi) in Hle. simpl. lia.
Qed.

Lemma served_all_fit (available : Z) (amounts : list Z) :
  Forall (fun p => 0 < p) amounts → total amounts ≤ available →
  Forall (fun s => s.2 = true) (served available amounts)
  ∧ accepted available amounts = amounts.
Proof.
  intros Hpos. revert available.
  induction Hpos as [|p amounts Hp Hpos IH]; intros available Hfit.
  - by split; [constructor|].
  - cbn [total] in Hfit.
    assert (0 ≤ total amounts).
    { apply total_nonneg. eapply Forall_impl; [exact Hpos|].
      intros x Hx. cbv beta in Hx. lia. }
    cbn [served accepted].
    destruct (decide (p ≤ available)); [|lia].
    destruct (IH (available - p)) as [IH1 IH2]; [lia|].
    split; [by constructor|by rewrite IH2].
Qed.

(** X14.  Requests that fit together all succeed, in whatever order they
    are served.  In the safe range, when calls of [redeemPoints] for one
    existing user, with positive whole amounts that sum to at most the
    balance, are in flight at once, every call that is served returns a
    redemption, under every schedule, and the balance ends at the initial
    balance less the amounts served, which is at least zero. *)
Theorem fitting_requests_all_succeed (this : LoyaltyService.t)
    (requests : list (string * Number.t * string))
    (schedule : list (nat * Z)) (σ : EventLoop.t) (user : string) :
  activeLocks this = ∅ →
  safe this →
  OrderRepository.userExists (orderRepository this) user = true →
  Forall (fun request =>
            request.1.1 = user ∧ ∃ n, request.1.2 = Number.ofZ n ∧ 0 < n)
    requests →
  Number.leb
    (Number.ofZ (total ((fun request => Number.toZ request.1.2) <$> requests)))
    (balanceOf this user) = true →
  exec (launch this requests) schedule = Some σ →
  let asked :=
    total (Number.toZ <$> (amount <$> sequential requests 0 schedule)) in
  Forall (fun s => ∃ task dto, tasks σ !! s.1 = Some task
                               ∧ stage task = Settled (Return dto))
    schedule
  ∧ balanceOf this user
    = Number.ofZ (earnedZ this user - redeemedZ this user)
  ∧ balanceOf (service σ) user
    = Number.ofZ (earnedZ this user - redeemedZ this user - asked)
  ∧ Number.leb 0 (balanceOf (service σ) user) = true.
Proof.
  intros Hlocks Hsafe Hknown Hreqs Hfit Hex asked.
  set (available := earnedZ this user - redeemedZ this user).
  assert (Hbal0 : balanceOf this user = Number.ofZ available)
    by (by apply safe_balanceOf).
  rewrite Hbal0, leb_ofZ in Hfit. apply bool_decide_eq_true in Hfit.
  pose proof (launch_settled_or_new this requests Hlocks) as Hinv.
  destruct (exec_sequential requests _ σ schedule Hinv Hex)
    as (Hserv & _ & Hresp & Hcalls).
  destruct (exec_once requests _ σ schedule Hinv Hex) as [Hnd _].
  cbn [launch nextPromise service] in *.
  set (calls := sequential requests 0 schedule) in *.
  assert (Hall : Forall (fun c => ∃ n lp rid now,
                           c = RedeemPoints user (Number.ofZ n) lp rid now
                           ∧ 0 < n)
                   calls).
  { clear -Hcalls Hreqs. rewrite Forall_forall in Hreqs.
    induction Hcalls
      as [|s c schedule calls (u & p & lp & rid & Hreq & ->) _ IH];
      constructor; [|done].
    destruct (Hreqs (u, p, rid)) as (Hu' & n & Hp' & Hn).
    { by eapply list_elem_of_lookup_2. }
    simpl in *. subst u p. by exists n, lp, rid, s.2. }
  assert (Hint : Forall integer_call calls).
  { eapply Forall_impl; [exact Hall|].
    intros c (n & lp & rid & now & -> & _). cbn [integer_call].
    by rewrite toZ_ofZ. }
  assert (Hpos : Forall (fun p => 0 < p) (Number.toZ <$> (amount <$> calls))).
  { rewrite <- list_fmap_compose. apply Forall_fmap.
    eapply Forall_impl; [exact Hall|].
    intros c Hc. cbv beta in Hc.
    destruct Hc as (n & lp & rid & now & -> & Hn).
    unfold compose. cbn [amount]. by rewrite toZ_ofZ. }
  assert (Hsub : asked ≤ available).
  { etransitivity; [|exact Hfit]. subst asked.
    apply (total_at_distinct _ schedule.*1).
    - apply Forall_fmap. eapply Forall_impl; [exact Hreqs|].
      intros [[u p] rid] (_ & n & Hp' & Hn). simpl in *. subst p.
      rewrite toZ_ofZ. lia.
    - done.
    - rewrite <- list_fmap_compose. apply Forall2_fmap.
      eapply Forall2_impl; [exact Hcalls|].
      intros s c (u & p & lp & rid & Hreq & ->).
      rewrite list_lookup_fmap, Hreq. done. }
  destruct (served_all_fit available (Number.toZ <$> (amount <$> calls))
              Hpos Hsub) as [Hok Hacc].
  destruct (run_served this calls user Hsafe Hknown Hall) as [Hout Htot].
  fold available in Hout, Htot.
  assert (Hreturn : Forall (fun resp => ∃ dto,
                              resp = RedemptionResponse (Return dto))
                      (run this calls).1).
  { eapply Forall2_Forall_l; [exact Hout|].
    eapply Forall_impl; [exact Hok|].
    intros [[left p] ok] Hs resp Hresp'. simpl in Hs. subst ok.
    destruct Hresp' as (dto & -> & _). by exists dto. }
  assert (Hasked : 0 ≤ asked).
  { apply total_nonneg. eapply Forall_impl; [exact Hpos|].
    intros x Hx. cbv beta in Hx. lia. }
  assert (Hbal : balanceOf (service σ) user
                 = Number.ofZ (available - asked)).
  { rewrite Hserv, safe_balanceOf by (by apply run_safe).
    rewrite earnedZ_run, redeemedZ_run, Htot, Hacc. f_equal.
    subst available asked. lia. }
  split_and!; [|done|done|].
  - eapply Forall2_Forall_l; [exact Hresp|].
    eapply Forall_impl; [exact Hreturn|].
    intros resp (dto & ->) s (task & Htask & Hrt).
    exists task, dto. split; [done|].
    unfold response_of in Hrt. destruct (stage task); try done.
    by injection Hrt as ->.
  - rewrite Hbal.
    change (Number.leb (Number.ofZ 0) (Number.ofZ (available - asked))
            = true).
    rewrite leb_ofZ. apply bool_decide_eq_true. lia.
Qed.

Lemma fitting_requests_all_succeed_witness :
  let requests :=
    [("eve", Number.ofZ 50, "a"); ("eve", Number.ofZ 50, "b")] in
  let schedule := [(1%nat, 1737400000000); (0%nat, 1737400000000)] in
  ∃ σ,
    exec (launch fresh requests) schedule = Some σ
    ∧ balanceOf (service σ) "eve" = 50.
Proof.
  intros requests schedule.
  destruct (exec (launch fresh requests) schedule) as [σ|] eqn:Hex;
    [|vm_compute in Hex; discriminate Hex].
  exists σ. split; [reflexivity|].
  assert (Hreqs : Forall (fun request : string * Number.t * string =>
                            request.1.1 = "eve"
                            ∧ ∃ n, request.1.2 = Number.ofZ n ∧ 0 < n)
                    requests).
  { repeat constructor; exists 50; split; reflexivity. }
  assert (Hfit :
    Number.leb
      (Number.ofZ
         (total ((fun request : string * Number.t * string =>
                    Number.toZ request.1.2) <$> requests)))
      (balanceOf fresh "eve") = true)
    by (vm_compute; reflexivity).
  destruct (fitting_requests_all_succeed fresh requests schedule σ "eve"
              eq_refl fresh_safe eq_refl Hreqs Hfit Hex)
    as (_ & _ & Hb & _).
  etransitivity; [exact Hb|]. vm_compute. reflexivity.
Defined.
End in_flight_properties.
